(** * MLCanvas: the graph-to-program compiler of [src/app.jsx]

    A shallow embedding of the dependency orderer ([topologicalSort]), the
    graph validator ([validateGraph]), the PyTorch script emitter
    ([generatePyTorchCode]) and the two handlers that publish the emitted
    text ([buildCode], [downloadCode]), followed by the properties the
    specification states about them. *)

From stdpp Require Import gmap strings list fin_maps relations.
From Stdlib Require Import ZArith Lia Ascii DecimalString.

Set Warnings "-register-all".

Local Open Scope string_scope.
Local Open Scope list_scope.
Local Open Scope Z_scope.

(** ** Graph model *)

(** An edge of the canvas.  Only [source] and [target] are read by the
    compiler; marker metadata is never inspected. *)
Record Edge := mkEdge { source : string; target : string }.

#[global] Instance Edge_eq_dec : EqDecision Edge.
Proof. solve_decision. Defined.

(** ** Topological orderer *)

Module Topo.

(** [(m.get(k) || 0)]: a missing entry and a zero entry both read as 0. *)
Definition get0 (m : gmap string Z) (k : string) : Z := default 0 (m !! k).

(** [(out.get(v) || [])]. *)
Definition succs (out : gmap string (list string)) (v : string) : list string :=
  default [] (out !! v).

(** [new Map(ids.map(id => [id, 0]))]: entries are set left to right. *)
Definition initIncoming (ids : list string) : gmap string Z :=
  foldl (fun m i => <[i := 0]> m) ∅ ids.

(** [new Map(ids.map(id => [id, []]))]. *)
Definition initOut (ids : list string) : gmap string (list string) :=
  foldl (fun m i => <[i := []]> m) ∅ ids.

(** Body of [edges.forEach] (lines 60-64). *)
Definition addEdge (st : gmap string (list string) * gmap string Z) (e : Edge)
  : gmap string (list string) * gmap string Z :=
  let '(out, incoming) := st in
  let out1 := if decide (is_Some (out !! source e)) then out
              else <[source e := []]> out in
  let out2 := <[source e := succs out1 (source e) ++ [target e]]> out1 in
  (out2, <[target e := get0 incoming (target e) + 1]> incoming).

Definition buildMaps (ids : list string) (edges : list Edge)
  : gmap string (list string) * gmap string Z :=
  foldl addEdge (initOut ids, initIncoming ids) edges.

(** The ready queue of line 65. *)
Definition initQueue (incoming : gmap string Z) (ids : list string) : list string :=
  filter (fun i => get0 incoming i = 0) ids.

(** Body of the inner [forEach] (lines 71-72), on the pair
    [(incoming, q)]. *)
Definition relax (st : gmap string Z * list string) (u : string)
  : gmap string Z * list string :=
  let '(incoming, q) := st in
  let incoming' := <[u := get0 incoming u - 1]> incoming in
  (incoming', if decide (get0 incoming' u = 0) then q ++ [u] else q).

(** State of the [while] loop: the in-degree table, the queue and the
    result built so far.  [out] is not written by the loop. *)
Record LoopState := mkLoop {
  incoming : gmap string Z;
  queue : list string;
  result : list string
}.

(** One iteration of [while (q.length)] (lines 68-73), entered with
    [v = q.shift()] and the remaining queue [q']. *)
Definition iteration (out : gmap string (list string)) (v : string) (q' : list string)
  (st : LoopState) : LoopState :=
  let '(inc', q'') := foldl relax (incoming st, q') (succs out v) in
  mkLoop inc' q'' (result st ++ [v]).

(** The [while] loop, with an explicit iteration budget. *)
Fixpoint loop (fuel : nat) (out : gmap string (list string)) (st : LoopState)
  : option (list string) :=
  match queue st with
  | [] => Some (result st)
  | v :: q' =>
      match fuel with
      | O => None
      | S fuel' => loop fuel' out (iteration out v q' st)
      end
  end.

Definition initState (ids : list string) (edges : list Edge) : LoopState :=
  let incoming := (buildMaps ids edges).2 in
  mkLoop incoming (initQueue incoming ids) [].

(** [topologicalSort] on the list of node ids, run for at most [fuel]
    iterations. *)
Definition run (fuel : nat) (ids : list string) (edges : list Edge)
  : option (list string) :=
  loop fuel (buildMaps ids edges).1 (initState ids edges).

(** The budget that is shown below to suffice on every input. *)
Definition budget (ids : list string) (edges : list Edge) : nat :=
  (length ids + length edges)%nat.

Definition sort (ids : list string) (edges : list Edge) : list string :=
  default [] (run (budget ids edges) ids edges).

(** The same loop with two ghost counters: [enq], the number of ids put
    on the queue so far, and [dec], the number of in-degree decrements
    performed so far (one per successor visited). *)
Fixpoint loopCount (fuel : nat) (out : gmap string (list string)) (st : LoopState)
  (enq dec : nat) : option (list string * nat * nat) :=
  match queue st with
  | [] => Some (result st, enq, dec)
  | v :: q' =>
      match fuel with
      | O => None
      | S fuel' =>
          let st' := iteration out v q' st in
          loopCount fuel' out st'
            (enq + (length (queue st') - length q'))%nat
            (dec + length (succs out v))%nat
      end
  end.

Definition runCount (fuel : nat) (ids : list string) (edges : list Edge)
  : option (list string * nat * nat) :=
  let st := initState ids edges in
  loopCount fuel (buildMaps ids edges).1 st (length (queue st)) 0.

End Topo.

(** ** JavaScript values *)

(** A JavaScript number as [Number::toString] sees it.  [Finite neg s n]
    is the non-zero number whose shortest decimal digit string is [s]
    (no trailing zero) and whose value is [± 0.s × 10^n], that is
    [s × 10^(n-k)] for [k] the number of digits of [s]: the triple
    [(s, k, n)] of the ECMAScript definition.  The emitter never
    computes with numbers; it only prints them and tests them for
    truthiness. *)
Inductive JsNumber :=
| NaN
| Infinity (negative : bool)
| Zero (negative : bool)
| Finite (negative : bool) (digits : positive) (pointPos : Z).

(** What [JSON.parse] and the object literals of the source can build.
    [JObj] lists the own properties in enumeration order, each key
    once. *)
Inductive JsValue :=
| JNull
| JBool (b : bool)
| JNum (x : JsNumber)
| JStr (s : string)
| JArr (items : list JsValue)
| JObj (fields : list (string * JsValue)).

Inductive JsError := TypeError.

(** Result of a call that may throw. *)
Inductive outcome (A : Type) :=
| Returned (a : A)
| Thrown (e : JsError).
Arguments Returned {A} a.
Arguments Thrown {A} e.

Definition nlc : ascii := "010"%char.
Definition nl : string := String nlc EmptyString.
Definition dq : string := String "034"%char EmptyString.
Definition bs : string := String "092"%char EmptyString.

Definition digitsOf (p : positive) : string := NilEmpty.string_of_uint (Pos.to_uint p).
Definition natToString (n : nat) : string := NilZero.string_of_uint (Nat.to_uint n).

Fixpoint zeros (n : nat) : string :=
  match n with O => EmptyString | S n' => String "0"%char (zeros n') end.

(** [Number::toString] (radix 10) on a positive finite number. *)
Definition positiveToString (s : positive) (n : Z) : string :=
  let ds := digitsOf s in
  let k := Z.of_nat (String.length ds) in
  if (k <=? n) && (n <=? 21) then ds +:+ zeros (Z.to_nat (n - k))
  else if (0 <? n) && (n <=? 21) then
    String.substring 0 (Z.to_nat n) ds +:+ "." +:+ String.substring (Z.to_nat n) (Z.to_nat (k - n)) ds
  else if (-6 <? n) && (n <=? 0) then "0." +:+ zeros (Z.to_nat (- n)) +:+ ds
  else
    let e := n - 1 in
    let mant := if k =? 1 then ds
                else String.substring 0 1 ds +:+ "." +:+ String.substring 1 (Z.to_nat (k - 1)) ds in
    mant +:+ "e" +:+ (if e <? 0 then "-" else "+")
         +:+ digitsOf (Z.to_pos (Z.abs e)).

Definition numberToString (x : JsNumber) : string :=
  match x with
  | NaN => "NaN"
  | Infinity false => "Infinity"
  | Infinity true => "-Infinity"
  | Zero _ => "0"
  | Finite false s n => positiveToString s n
  | Finite true s n => "-" +:+ positiveToString s n
  end.

(** [ToBoolean]. *)
Definition truthy (v : JsValue) : bool :=
  match v with
  | JNull => false
  | JBool b => b
  | JNum NaN | JNum (Zero _) => false
  | JNum _ => true
  | JStr EmptyString => false
  | JStr _ => true
  | JArr _ | JObj _ => true
  end.

(** The results of a sequence of calls, or the first exception. *)
Fixpoint collect {A : Type} (xs : list (outcome A)) : outcome (list A) :=
  match xs with
  | [] => Returned []
  | Thrown e :: _ => Thrown e
  | Returned a :: xs' =>
      match collect xs' with
      | Thrown e => Thrown e
      | Returned l => Returned (a :: l)
      end
  end.

(** The object has an own property of that name. *)
Definition hasOwn (key : string) (fields : list (string * JsValue)) : bool :=
  existsb (fun kv => String.eqb (fst kv) key) fields.

(** [ToString], as applied by a template literal.  An array prints its
    elements joined by commas, [null] elements as nothing.  An object
    is converted through its [toString] method: the inherited one
    prints [[object Object]]; an own property [toString] hides it and,
    coming from JSON, is never callable, after which [valueOf] yields
    no primitive either and the conversion throws. *)
Fixpoint toString (v : JsValue) : outcome string :=
  match v with
  | JNull => Returned "null"
  | JBool true => Returned "true"
  | JBool false => Returned "false"
  | JNum x => Returned (numberToString x)
  | JStr s => Returned s
  | JArr items =>
      match collect (List.map (fun x => match x with
                                        | JNull => Returned EmptyString
                                        | _ => toString x
                                        end) items) with
      | Thrown e => Thrown e
      | Returned texts => Returned (String.concat "," texts)
      end
  | JObj fields =>
      if hasOwn "toString" fields then Thrown TypeError
      else Returned "[object Object]"
  end.

Definition hexDigit (n : nat) : ascii :=
  ascii_of_nat (if (n <? 10)%nat then 48 + n else 87 + n).

(** [QuoteJSONString] on one character. *)
Definition quoteChar (c : ascii) : string :=
  let n := nat_of_ascii c in
  if (n =? 34)%nat then bs +:+ dq
  else if (n =? 92)%nat then bs +:+ bs
  else if (n =? 8)%nat then bs +:+ "b"
  else if (n =? 9)%nat then bs +:+ "t"
  else if (n =? 10)%nat then bs +:+ "n"
  else if (n =? 12)%nat then bs +:+ "f"
  else if (n =? 13)%nat then bs +:+ "r"
  else if (n <? 32)%nat then
    bs +:+ "u00" +:+ String (hexDigit (n / 16)) (String (hexDigit (n mod 16)) EmptyString)
  else String c EmptyString.

Fixpoint quoteBody (s : string) : string :=
  match s with
  | EmptyString => EmptyString
  | String c s' => quoteChar c +:+ quoteBody s'
  end.

Definition quote (s : string) : string := dq +:+ quoteBody s +:+ dq.

(** [JSON.stringify(v, null, 2)] at the current indentation. *)
Fixpoint stringifyAt (indent : string) (v : JsValue) : string :=
  let inner := indent +:+ "  " in
  match v with
  | JNull => "null"
  | JBool true => "true"
  | JBool false => "false"
  | JNum (Finite _ _ _ as x) | JNum (Zero _ as x) => numberToString x
  | JNum _ => "null"
  | JStr s => quote s
  | JArr [] => "[]"
  | JArr items =>
      "[" +:+ nl +:+ inner
        +:+ String.concat ("," +:+ nl +:+ inner) (List.map (stringifyAt inner) items)
        +:+ nl +:+ indent +:+ "]"
  | JObj [] => "{}"
  | JObj fields =>
      "{" +:+ nl +:+ inner
        +:+ String.concat ("," +:+ nl +:+ inner)
              (List.map (fun kv => match kv with
                                   | (k, x) => quote k +:+ ": " +:+ stringifyAt inner x
                                   end) fields)
        +:+ nl +:+ indent +:+ "}"
  end.

Definition stringify (v : JsValue) : string := stringifyAt EmptyString v.

(** [s.split(sep)] for a one-character separator. *)
Fixpoint split (sep : ascii) (s : string) : list string :=
  match s with
  | EmptyString => [EmptyString]
  | String c s' =>
      if Ascii.eqb c sep then EmptyString :: split sep s'
      else match split sep s' with
           | [] => [String c EmptyString]
           | h :: t => String c h :: t
           end
  end.

(** [\W]: anything but an ASCII letter, digit or underscore. *)
Definition isWordChar (c : ascii) : bool :=
  let n := nat_of_ascii c in
  ((48 <=? n) && (n <=? 57) || (65 <=? n) && (n <=? 90)
   || (97 <=? n) && (n <=? 122) || (n =? 95))%nat.

(** [s.replace(/\W+/g, "_")]; [inRun] tells that the previous character
    already belonged to the run being replaced. *)
Fixpoint replaceNonWordFrom (inRun : bool) (s : string) : string :=
  match s with
  | EmptyString => EmptyString
  | String c s' =>
      if isWordChar c then String c (replaceNonWordFrom false s')
      else if inRun then replaceNonWordFrom true s'
      else String "_"%char (replaceNonWordFrom true s')
  end.

Definition replaceNonWord (s : string) : string := replaceNonWordFrom false s.

(** [a || b] on strings. *)
Definition strOr (a b : string) : string :=
  match a with EmptyString => b | _ => a end.

(** [params || d], [params] possibly absent. *)
Definition valueOr (p : option JsValue) (d : JsValue) : JsValue :=
  match p with
  | Some v => if truthy v then v else d
  | None => d
  end.

(** [p.key] for the keys the emitter reads ([lr], [batch_size],
    [epochs]), none of which any prototype defines: only an own property
    of an object yields a value. *)
Definition getProp (p : JsValue) (key : string) : option JsValue :=
  match p with
  | JObj fields => snd <$> List.find (fun kv => String.eqb (fst kv) key) fields
  | _ => None
  end.

(** [x ?? d]. *)
Definition nullish (x : option JsValue) (d : JsValue) : JsValue :=
  match x with
  | None | Some JNull => d
  | Some v => v
  end.

(** ** Nodes *)

Module NODE_TYPES.
Definition Data : string := "Data".
Definition Transform : string := "Transform".
Definition Split : string := "Split".
Definition Model : string := "Model".
Definition Loss : string := "Loss".
Definition Optimizer : string := "Optimizer".
Definition Metric : string := "Metric".
Definition Trainer : string := "Trainer".
End NODE_TYPES.

(** [n.data].  [params] is [None] when the property is absent. *)
Record NodeData := mkData {
  label : string;
  type : string;
  params : option JsValue;
  summary : string
}.

(** A canvas node; its position and renderer tag are not read by the
    compiler. *)
Record Node := mkNode { id : string; data : NodeData }.

Definition topologicalSort_fuel (fuel : nat) (nodes : list Node) (edges : list Edge)
  : option (list string) :=
  Topo.run fuel (id <$> nodes) edges.

Definition topologicalSort (nodes : list Node) (edges : list Edge) : list string :=
  Topo.sort (id <$> nodes) edges.

(** ** Validator *)

Record Validation := mkValidation { ok : bool; errors : list string }.

Definition typeCount (nodes : list Node) (t : string) : nat :=
  length (List.filter (fun n => String.eqb (type (data n)) t) nodes).

Definition errNoModel : string := "Нет узла Model".
Definition errNoLoss : string := "Нет узла Loss".
Definition errNoOptimizer : string := "Нет узла Optimizer".
Definition errCycle : string := "Обнаружен цикл в графе".

Definition pushIf (c : bool) (msg : string) (errs : list string) : list string :=
  if c then errs ++ [msg] else errs.

Definition validateGraph (nodes : list Node) (edges : list Edge) : Validation :=
  let errors := [] in
  let errors := pushIf (typeCount nodes NODE_TYPES.Model =? 0)%nat errNoModel errors in
  let errors := pushIf (typeCount nodes NODE_TYPES.Loss =? 0)%nat errNoLoss errors in
  let errors := pushIf (typeCount nodes NODE_TYPES.Optimizer =? 0)%nat errNoOptimizer errors in
  if negb (length errors =? 0)%nat then mkValidation false errors
  else
    let order := topologicalSort nodes edges in
    let errors := pushIf (negb (length order =? length nodes)%nat) errCycle errors in
    mkValidation (length errors =? 0)%nat errors.

(** ** Code emitter *)

(** What [byId[id]] evaluates to when it is not [undefined]: an own
    property (a node), or a member of [Object.prototype], which a plain
    object built by [Object.fromEntries] inherits. *)
Inductive Looked :=
| Own (n : Node)
| Inherited (key : string).

Definition objectPrototypeKeys : list string :=
  [ "constructor"; "hasOwnProperty"; "isPrototypeOf"; "propertyIsEnumerable";
    "toLocaleString"; "toString"; "valueOf"; "__proto__";
    "__defineGetter__"; "__defineSetter__"; "__lookupGetter__"; "__lookupSetter__" ].

(** [byId[k]] for [byId = Object.fromEntries(nodes.map(n => [n.id, n]))]:
    the last node carrying the id wins. *)
Definition byIdLookup (nodes : list Node) (k : string) : option Looked :=
  match List.find (fun n => String.eqb (id n) k) (rev nodes) with
  | Some n => Some (Own n)
  | None => if decide (k ∈ objectPrototypeKeys) then Some (Inherited k) else None
  end.

(** [order.map((id) => byId[id]).filter(Boolean)]: nodes and inherited
    members are all truthy, [undefined] is dropped. *)
Definition orderedNodes (nodes : list Node) (order : list string) : list Looked :=
  omap (byIdLookup nodes) order.

(** [n.data] on an element of [orderedNodes]; an inherited member has no
    [data], and reading [.type] of [undefined] throws. *)
Definition dataOf (x : Looked) : outcome Node :=
  match x with
  | Own n => Returned n
  | Inherited _ => Thrown TypeError
  end.

(** The first pass over [orderedNodes] (line 164) evaluates
    [n.data.type] on every element, left to right. *)
Fixpoint readAll (xs : list Looked) : outcome (list Node) :=
  match xs with
  | [] => Returned []
  | x :: xs' =>
      match dataOf x with
      | Thrown e => Thrown e
      | Returned n =>
          match readAll xs' with
          | Thrown e => Thrown e
          | Returned ns => Returned (n :: ns)
          end
      end
  end.

Definition hasType (t : string) (n : Node) : bool := String.eqb (type (data n)) t.

(** [`# params: ${text.split("\n").join("\n# ")}`]. *)
Definition paramsComment (text : string) : string :=
  "# params: " +:+ String.concat (nl +:+ "# ") (split nlc text).

Definition emptyObject : JsValue := JObj [].

Definition num (s : positive) (n : Z) : JsValue := JNum (Finite false s n).

(** [{ train: 0.8, val: 0.1, test: 0.1, shuffle: true }]. *)
Definition splitDefaults : JsValue :=
  JObj [("train", num 8 0); ("val", num 1 0); ("test", num 1 0); ("shuffle", JBool true)].

(** [1e-3], [64] and [3]. *)
Definition lrDefault : JsValue := num 1 (-2).
Definition batchSizeDefault : JsValue := num 64 2.
Definition epochsDefault : JsValue := num 3 1.

Definition headerLines : list string :=
  [ "# Auto-generated by ML Pipeline Visual Board";
    "import torch";
    "import torch.nn as nn";
    "import torch.optim as optim";
    "from torch.utils.data import DataLoader";
    nl;
    "# ---- Config ----";
    "device = " +:+ dq +:+ "cuda" +:+ dq +:+ " if torch.cuda.is_available() else "
      +:+ dq +:+ "cpu" +:+ dq;
    nl ].

(** Body of [dataNodes.forEach((n, i) => ...)]. *)
Definition dataNodeLines (i : nat) (n : Node) : list string :=
  let name := strOr (replaceNonWord (label (data n))) ("dataset_" +:+ natToString i) in
  let params := stringify (valueOr (params (data n)) emptyObject) in
  [ "# Data: " +:+ label (data n);
    name +:+ " = None  # TODO: load your dataset here";
    paramsComment params ].

Definition dataLines (ordered : list Node) : list string :=
  let dataNodes := List.filter (hasType NODE_TYPES.Data) ordered in
  match dataNodes with
  | [] => []
  | _ => concat (imap dataNodeLines dataNodes) ++ [nl]
  end.

Definition transformNodeLines (i : nat) (n : Node) : list string :=
  let name := strOr (replaceNonWord (label (data n))) ("transform_" +:+ natToString i) in
  let params := stringify (valueOr (params (data n)) emptyObject) in
  [ name +:+ " = nn.Identity()  # TODO: implement transform";
    paramsComment params ].

Definition transformLines (ordered : list Node) : list string :=
  let tfNodes := List.filter (hasType NODE_TYPES.Transform) ordered in
  match tfNodes with
  | [] => []
  | _ => ["# Transforms"] ++ concat (imap transformNodeLines tfNodes) ++ [nl]
  end.

Definition splitBlock (split : Node) : list string :=
  let p := valueOr (params (data split)) splitDefaults in
  [ "# Split";
    "train_ds, val_ds, test_ds = None, None, None  # TODO: split your dataset according to params";
    paramsComment (stringify p);
    nl ].

Definition splitLines (ordered : list Node) : list string :=
  match List.find (hasType NODE_TYPES.Split) ordered with
  | Some split => splitBlock split
  | None => []
  end.

Definition modelBlock (model : Node) : list string :=
  let p := valueOr (params (data model)) emptyObject in
  [ "# Model: " +:+ strOr (label (data model)) "Model";
    "class GeneratedModel(nn.Module):";
    "    def __init__(self):";
    "        super().__init__()";
    "        # TODO: build layers based on params";
    "        self.net = nn.Sequential(nn.Flatten(), nn.Linear(784, 128), nn.ReLU(), nn.Linear(128, 10))";
    "    def forward(self, x):";
    "        return self.net(x)";
    "model = GeneratedModel().to(device)";
    paramsComment (stringify p);
    nl ].

Definition modelLines (ordered : list Node) : list string :=
  match List.find (hasType NODE_TYPES.Model) ordered with
  | Some model => modelBlock model
  | None => []
  end.

Definition lossLines (ordered : list Node) : list string :=
  match List.find (hasType NODE_TYPES.Loss) ordered with
  | Some _ => [ "# Loss"; "criterion = nn.CrossEntropyLoss()"; nl ]
  | None => []
  end.

(** The text interpolated after [lr=]: [p.lr ?? 1e-3] for
    [p = opt.data.params || { lr: 1e-3 }], converted by the template
    literal of line 229. *)
Definition lrText (opt : Node) : outcome string :=
  let p := valueOr (params (data opt)) (JObj [("lr", lrDefault)]) in
  toString (nullish (getProp p "lr") lrDefault).

Definition optimizerLine (text : string) : string :=
  "optimizer = optim.Adam(model.parameters(), lr=" +:+ text +:+ ")".

(** The three lines pushed for the optimizer, given the converted
    learning rate. *)
Definition optimizerBlockWith (text : string) : list string :=
  [ "# Optimizer"; optimizerLine text; nl ].

Definition optimizerBlock (opt : Node) : outcome (list string) :=
  match lrText opt with
  | Thrown e => Thrown e
  | Returned text => Returned (optimizerBlockWith text)
  end.

Definition optimizerLines (ordered : list Node) : outcome (list string) :=
  match List.find (hasType NODE_TYPES.Optimizer) ordered with
  | Some opt => optimizerBlock opt
  | None => Returned []
  end.

(** The lines pushed for the trainer, given the converted batch size
    and number of epochs. *)
Definition trainerBlockWith (batch epochs : string) : list string :=
  [ "# Dataloaders";
    "train_loader = DataLoader(train_ds, batch_size=" +:+ batch +:+ ", shuffle=True)  # TODO";
    "val_loader = DataLoader(val_ds, batch_size=" +:+ batch +:+ ")  # TODO";
    nl;
    "# Train Loop";
    "for epoch in range(" +:+ epochs +:+ "):";
    "    model.train()";
    "    for x, y in train_loader:";
    "        x, y = x.to(device), y.to(device)";
    "        optimizer.zero_grad()";
    "        out = model(x)";
    "        loss = criterion(out, y)";
    "        loss.backward()";
    "        optimizer.step()";
    "    print(f" +:+ dq +:+ "epoch {epoch+1}: ok" +:+ dq +:+ ")" ].

(** [p.batch_size ?? 64] is converted at lines 238 and 239 (the same
    value, hence the same text or the same exception), [p.epochs ?? 3]
    at line 242. *)
Definition trainerBlock (trainer : Node) : outcome (list string) :=
  let p := valueOr (params (data trainer))
             (JObj [("epochs", epochsDefault); ("batch_size", batchSizeDefault)]) in
  match toString (nullish (getProp p "batch_size") batchSizeDefault) with
  | Thrown e => Thrown e
  | Returned batch =>
      match toString (nullish (getProp p "epochs") epochsDefault) with
      | Thrown e => Thrown e
      | Returned epochs => Returned (trainerBlockWith batch epochs)
      end
  end.

Definition trainerLines (ordered : list Node) : outcome (list string) :=
  match List.find (hasType NODE_TYPES.Trainer) ordered with
  | Some trainer => trainerBlock trainer
  | None => Returned []
  end.

Definition metricLines (ordered : list Node) : list string :=
  match List.filter (hasType NODE_TYPES.Metric) ordered with
  | [] => []
  | _ =>
    [ nl +:+ "# Metrics (evaluate on val_loader)";
      "model.eval()";
      "correct = 0; total = 0";
      "with torch.no_grad():";
      "    for x, y in val_loader:";
      "        x, y = x.to(device), y.to(device)";
      "        out = model(x)";
      "        pred = out.argmax(dim=1)";
      "        correct += (pred == y).sum().item()";
      "        total += y.size(0)";
      "print(" +:+ dq +:+ "val/accuracy:" +:+ dq +:+ ", correct/total if total else 0.0)" ]
  end.

Definition footerLines (projectName : string) : list string :=
  [ nl +:+ "# Save model";
    "torch.save(model.state_dict(), " +:+ dq +:+ projectName +:+ ".pt" +:+ dq +:+ ")" ].

(** The [lines] array, given the optimizer and the trainer lines. *)
Definition assemble (ordered : list Node) (projectName : string)
  (optimizer trainer : list string) : list string :=
  headerLines ++ dataLines ordered ++ transformLines ordered ++ splitLines ordered
    ++ modelLines ordered ++ lossLines ordered ++ optimizer ++ trainer
    ++ metricLines ordered ++ footerLines projectName.

(** The [lines] array at the [return] of [generatePyTorchCode], given
    the nodes behind [orderedNodes]; an exception thrown while the
    optimizer or the trainer lines are built leaves the function. *)
Definition scriptLines (ordered : list Node) (projectName : string)
  : outcome (list string) :=
  match optimizerLines ordered with
  | Thrown e => Thrown e
  | Returned optimizer =>
      match trainerLines ordered with
      | Thrown e => Thrown e
      | Returned trainer => Returned (assemble ordered projectName optimizer trainer)
      end
  end.

(** [return lines.join("\n")]. *)
Definition emitScript (ordered : list Node) (projectName : string) : outcome string :=
  match scriptLines ordered projectName with
  | Thrown e => Thrown e
  | Returned lines => Returned (String.concat nl lines)
  end.

Definition generatePyTorchCode (nodes : list Node) (edges : list Edge)
  (projectName : string) : outcome string :=
  let order := topologicalSort nodes edges in
  match readAll (orderedNodes nodes order) with
  | Thrown e => Thrown e
  | Returned ordered => emitScript ordered projectName
  end.

(** ** Build and download handlers *)

(** The component state the two handlers close over. *)
Record Board := mkBoard {
  nodes : list Node;
  edges : list Edge;
  code : string;
  projectName : string
}.

Definition setCode (b : Board) (text : string) : Board :=
  mkBoard (nodes b) (edges b) text (projectName b).

Definition errorReport (errs : list string) : string :=
  "# Ошибки графа:" +:+ nl +:+ "# - " +:+ String.concat (nl +:+ "# - ") errs.

(** [buildCode]: the state after the handler has run. *)
Definition buildCode (b : Board) : outcome Board :=
  let v := validateGraph (nodes b) (edges b) in
  if negb (ok v) then Returned (setCode b (errorReport (errors v)))
  else
    match generatePyTorchCode (nodes b) (edges b) (projectName b) with
    | Thrown e => Thrown e
    | Returned text => Returned (setCode b text)
    end.

(** A call [download(filename, text)]. *)
Record Download := mkDownload { filename : string; text : string }.

(** [downloadCode]: the state after the handler and the file it hands to
    [download].  [code] is the value captured by the render in which the
    handler was created: the [setCode] issued by [buildCode] is not
    visible in the second statement. *)
Definition downloadCode (b : Board) : outcome (Board * Download) :=
  let fname := strOr (projectName b) "project" +:+ ".py" in
  match (match code b with
         | EmptyString => buildCode b
         | _ => Returned b
         end) with
  | Thrown e => Thrown e
  | Returned b' =>
      match code b with
      | EmptyString =>
          match generatePyTorchCode (nodes b) (edges b) (projectName b) with
          | Thrown e => Thrown e
          | Returned text => Returned (b', mkDownload fname text)
          end
      | _ => Returned (b', mkDownload fname (code b))
      end
  end.

(** ** Editor operations *)

(** [uid(prefix)]: the prefix, an underscore and the base-36 digits
    sliced from [Math.random()]; the digits drawn are an input. *)
Definition uid (prefix random : string) : string := prefix +:+ "_" +:+ random.

(** The component state the editing handlers close over: the board and
    the selected node ([None] for [null]). *)
Record Editor := mkEditor { board : Board; selected : option Node }.

Definition setNodes (b : Board) (ns : list Node) : Board :=
  mkBoard ns (edges b) (code b) (projectName b).

(** [addNode(type)], with the digits [uid] drew. *)
Definition addNode (random t : string) (ed : Editor) : Editor :=
  let n := mkNode (uid "node" random) (mkData t t (Some (JObj [])) EmptyString) in
  mkEditor (setNodes (board ed) (nodes (board ed) ++ [n])) (Some n).

(** [removeSelected]. *)
Definition removeSelected (ed : Editor) : Editor :=
  match selected ed with
  | None => ed
  | Some sel =>
      let b := board ed in
      mkEditor
        (mkBoard (filter (fun n => id n ≠ id sel) (nodes b))
                 (filter (fun e => source e ≠ id sel ∧ target e ≠ id sel) (edges b))
                 (code b) (projectName b))
        None
  end.

(** [updateNode(patched)]: [{ ...n, data: patched.data }] for every node
    carrying the id of [patched]. *)
Definition updateNode (patched : Node) (ed : Editor) : Editor :=
  mkEditor
    (setNodes (board ed)
       ((fun n => if decide (id n = id patched) then mkNode (id n) (data patched) else n)
          <$> nodes (board ed)))
    (Some patched).


(** ** Vocabulary of the specification *)

(** [u → v] is an edge of the graph. *)
Definition has_edge (edges : list Edge) (u v : string) : Prop :=
  exists e, e ∈ edges ∧ source e = u ∧ target e = v.

(** The edge set induces no cycle: no id reaches itself along one or
    more edges. *)
Definition acyclic (edges : list Edge) : Prop :=
  forall u, ¬ tc (has_edge edges) u u.

(** Every edge starts and ends at a node of the graph. *)
Definition no_dangling (nodes : list Node) (edges : list Edge) : Prop :=
  forall e, e ∈ edges -> source e ∈ (id <$> nodes) ∧ target e ∈ (id <$> nodes).


(** No id that can reach the emitter names a member of
    [Object.prototype] without also naming a node. *)
Definition inherited_free (nodes : list Node) (edges : list Edge) : Prop :=
  forall e, e ∈ edges -> target e ∈ objectPrototypeKeys -> target e ∈ (id <$> nodes).

(** Number of elements of [lines] equal to [line]. *)
Definition lineCount (line : string) (lines : list string) : nat :=
  length (filter (fun l => l = line) lines).


(** [params.key] as the trainer block reads it: the own property of an
    object-valued [params], unless it is [null]. *)
Definition ownParam (n : Node) (key : string) : option JsValue :=
  match params (data n) with
  | Some (JObj fields) =>
      match getProp (JObj fields) key with
      | Some JNull | None => None
      | Some v => Some v
      end
  | _ => None
  end.

(** The string holds no line break. *)
Fixpoint noNewline (s : string) : bool :=
  match s with
  | EmptyString => true
  | String c s' => negb (Ascii.eqb c nlc) && noNewline s'
  end.

(** The value converts to a string: no object with an own [toString]
    property is met, directly or through arrays. *)
Fixpoint printable (v : JsValue) : bool :=
  match v with
  | JArr items => forallb printable items
  | JObj fields => negb (hasOwn "toString" fields)
  | _ => true
  end.

(** No string met, directly or through arrays, holds a line break. *)
Fixpoint oneLine (v : JsValue) : bool :=
  match v with
  | JStr s => noNewline s
  | JArr items => forallb oneLine items
  | _ => true
  end.

(** The value the emitter interpolates for [key]: [p.key ?? dflt]. *)
Definition paramValue (n : Node) (key : string) (dflt : JsValue) : JsValue :=
  match ownParam n key with
  | Some v => v
  | None => dflt
  end.

(** The three values the emitter may interpolate from the node's
    [params] all convert to strings. *)
Definition interpolable (n : Node) : bool :=
  printable (paramValue n "lr" lrDefault)
  && printable (paramValue n "batch_size" batchSizeDefault)
  && printable (paramValue n "epochs" epochsDefault).

(** The label and the three interpolated values print on one line. *)
Definition singleLined (n : Node) : bool :=
  noNewline (label (data n))
  && oneLine (paramValue n "lr" lrDefault)
  && oneLine (paramValue n "batch_size" batchSizeDefault)
  && oneLine (paramValue n "epochs" epochsDefault).

(** The values interpolated for the first Optimizer and the first
    Trainer node of [ordered] convert to strings. *)
Definition optimizerPrintable (ordered : list Node) : bool :=
  match List.find (hasType NODE_TYPES.Optimizer) ordered with
  | Some opt => printable (paramValue opt "lr" lrDefault)
  | None => true
  end.

Definition trainerPrintable (ordered : list Node) : bool :=
  match List.find (hasType NODE_TYPES.Trainer) ordered with
  | Some trainer =>
      printable (paramValue trainer "batch_size" batchSizeDefault)
      && printable (paramValue trainer "epochs" epochsDefault)
  | None => true
  end.

(** The line that opens the evaluation of the metrics block. *)
Definition evalLine : string := "model.eval()".

(** Every character is a letter, a digit or an underscore. *)
Fixpoint allWordChars (s : string) : bool :=
  match s with
  | EmptyString => true
  | String c s' => isWordChar c && allWordChars s'
  end.

(** The node types for which the emitter has a block. *)
Definition emittingTypes : list string :=
  [ NODE_TYPES.Data; NODE_TYPES.Transform; NODE_TYPES.Split; NODE_TYPES.Model;
    NODE_TYPES.Loss; NODE_TYPES.Optimizer; NODE_TYPES.Trainer; NODE_TYPES.Metric ].


(** A line of Python that is only a comment. *)
Definition isComment (line : string) : bool := String.prefix "#" line.

(** A node as the property editor leaves it after a [params] edit. *)
Definition withParams (n : Node) (p : JsValue) : Node :=
  mkNode (id n) (mkData (label (data n)) (type (data n)) (Some p) (summary (data n))).

(** The node [addNode] creates for a type, under a given id: the label
    is the type name, [params] is the empty object. *)
Definition newNode (i t : string) : Node :=
  mkNode i (mkData t t (Some emptyObject) EmptyString).

(** Sample graphs: a minimal pipeline, and one with two split stages. *)
Definition pipeline (optimizer : Node) : list Node :=
  [newNode "m" "Model"; newNode "l" "Loss"; optimizer].

Definition pipelineEdges : list Edge := [mkEdge "m" "l"; mkEdge "l" "o"].



(** ** Measures and invariants of the orderer's loop *)

Module TopoSpec.
Import Topo.

(** Sum of the positive in-degrees still recorded in the table. *)
Definition pot (m : gmap string Z) : nat :=
  map_fold (fun _ x acc => (Z.to_nat x + acc)%nat) 0%nat m.

(** The loop variant: queue length plus outstanding positive in-degree. *)
Definition weight (st : LoopState) : nat :=
  (length (queue st) + pot (incoming st))%nat.

(** Number of occurrences of [u] in a successor list. *)
Definition occ (u : string) (us : list string) : nat :=
  length (filter (fun x => x = u) us).

(** In-edges of [u] whose source has not been emitted yet. *)
Definition pending (edges : list Edge) (res : list string) (u : string) : nat :=
  length (filter (fun e => target e = u ∧ source e ∉ res) edges).

(** Ids that can enter the queue: node ids and edge targets. *)
Definition known (ids : list string) (edges : list Edge) (w : string) : Prop :=
  w ∈ ids ∨ w ∈ (target <$> edges).

Definition Prov (ids : list string) (edges : list Edge) (st : LoopState) : Prop :=
  forall w, w ∈ result st ++ queue st -> known ids edges w.

(** Invariant inside the inner [forEach], with [res] already extended
    by the dequeued id and [us] the successors still to visit. *)
Record Inner (ids : list string) (edges : list Edge)
  (res us : list string) (inc : gmap string Z) (q : list string) : Prop := {
  inner_nodup : NoDup (res ++ q);
  inner_count : forall u, get0 inc u = Z.of_nat (pending edges res u + occ u us);
  inner_zero : forall w, w ∈ res ++ q -> get0 inc w = 0;
  inner_ready : forall w, w ∈ ids -> get0 inc w = 0 -> w ∈ res ++ q
}.

(** Invariant at the head of the [while] loop. *)
Record Outer (ids : list string) (edges : list Edge) (st : LoopState) : Prop := {
  outer_inner : Inner ids edges (result st) [] (incoming st) (queue st);
  outer_order : forall e l1 l2, e ∈ edges ->
    result st = l1 ++ target e :: l2 -> source e ∈ l1
}.

(** Two in-degree tables that read alike. *)
Definition tables_agree (inc inc' : gmap string Z) : Prop :=
  forall u, get0 inc u = get0 inc' u.

End TopoSpec.

(** ** Termination of the orderer *)

Module TopoTermination.
Import Topo TopoSpec.

Lemma pot_empty : pot ∅ = 0%nat.
Proof. unfold pot. by rewrite map_fold_empty. Qed.

Lemma pot_insert_fresh m k y :
  m !! k = None -> pot (<[k := y]> m) = (Z.to_nat y + pot m)%nat.
Proof.
  intros Hk. unfold pot. rewrite map_fold_insert_L; [done | | done].
  intros. lia.
Qed.

Lemma pot_insert m k y :
  (pot (<[k := y]> m) + Z.to_nat (get0 m k) = pot m + Z.to_nat y)%nat.
Proof.
  unfold get0. destruct (m !! k) as [x|] eqn:Hk; simpl.
  - rewrite <- (insert_delete_id m k x) at 2 by done.
    rewrite <- (insert_delete_eq m k y).
    rewrite !pot_insert_fresh by apply lookup_delete_eq. lia.
  - rewrite pot_insert_fresh by done. lia.
Qed.

Lemma get0_insert_eq m k y : get0 (<[k := y]> m) k = y.
Proof. unfold get0. by rewrite lookup_insert_eq. Qed.

Lemma get0_insert_ne m k j y : k ≠ j -> get0 (<[k := y]> m) j = get0 m j.
Proof. intros. unfold get0. by rewrite lookup_insert_ne. Qed.

Lemma relax_weight inc q u :
  (length (relax (inc, q) u).2 + pot (relax (inc, q) u).1 <= length q + pot inc)%nat.
Proof.
  unfold relax. cbn [fst snd]. rewrite get0_insert_eq.
  pose proof (pot_insert inc u (get0 inc u - 1)) as Hp.
  case_decide as Hz.
  - rewrite length_app. simpl. lia.
  - lia.
Qed.

Lemma foldl_relax_weight us inc q :
  (length (foldl relax (inc, q) us).2 + pot (foldl relax (inc, q) us).1
   <= length q + pot inc)%nat.
Proof.
  revert inc q. induction us as [|u us IH]; intros inc q; cbn [foldl]; [simpl; lia|].
  pose proof (relax_weight inc q u) as Hw.
  destruct (relax (inc, q) u) as [inc1 q1].
  specialize (IH inc1 q1). cbn [fst snd] in Hw. lia.
Qed.

(** Each iteration shifts one element off the queue and the variant
    drops by at least one. *)
Lemma iteration_weight out v q' st :
  queue st = v :: q' ->
  (weight (iteration out v q' st) < weight st)%nat.
Proof.
  intros Hq. unfold weight, iteration. rewrite Hq.
  pose proof (foldl_relax_weight (succs out v) (incoming st) q') as Hw.
  destruct (foldl relax (incoming st, q') (succs out v)) as [inc1 q1].
  simpl in *. lia.
Qed.

Lemma loop_enough_fuel out fuel st :
  (weight st <= fuel)%nat -> is_Some (loop fuel out st).
Proof.
  revert st. induction fuel as [|fuel IH]; intros st Hw; simpl.
  - destruct (queue st) as [|v q'] eqn:Hq; [by eexists|].
    unfold weight in Hw. rewrite Hq in Hw. simpl in Hw. lia.
  - destruct (queue st) as [|v q'] eqn:Hq; [by eexists|].
    apply IH. pose proof (iteration_weight out v q' st Hq). lia.
Qed.

Lemma loop_more_fuel out fuel fuel' st r :
  loop fuel out st = Some r -> (fuel <= fuel')%nat -> loop fuel' out st = Some r.
Proof.
  revert fuel' st. induction fuel as [|fuel IH]; intros fuel' st; simpl.
  - destruct (queue st) eqn:Hq; [|done]. intros Hr _.
    destruct fuel'; simpl; by rewrite Hq.
  - destruct (queue st) as [|v q'] eqn:Hq.
    + intros Hr _. destruct fuel'; simpl; by rewrite Hq.
    + intros Hr Hle. destruct fuel' as [|fuel']; [lia|]. simpl. rewrite Hq.
      apply IH; [done | lia].
Qed.

Lemma pot_initIncoming_aux (ids : list string) (m : gmap string Z) :
  (pot (foldl (fun (m : gmap string Z) (i : string) => <[i := 0%Z]> m) m ids)
   <= pot m)%nat.
Proof.
  revert m. induction ids as [|i ids IH]; intros m; simpl; [lia|].
  etransitivity; [apply IH|].
  pose proof (pot_insert m i 0). simpl in *. lia.
Qed.

Lemma pot_initIncoming ids : pot (initIncoming ids) = 0%nat.
Proof.
  pose proof (pot_initIncoming_aux ids ∅) as H. rewrite pot_empty in H.
  unfold initIncoming. lia.
Qed.

Lemma buildMaps_snd_aux edges o inc :
  (foldl addEdge (o, inc) edges).2
  = foldl (fun m e => <[target e := get0 m (target e) + 1]> m) inc edges.
Proof.
  revert o inc. induction edges as [|e edges IH]; intros o inc; simpl; [done|].
  apply IH.
Qed.

Lemma pot_add_edges (edges : list Edge) (inc : gmap string Z) :
  (pot (foldl (fun (m : gmap string Z) e => <[target e := (get0 m (target e) + 1)%Z]> m)
          inc edges)
   <= pot inc + length edges)%nat.
Proof.
  revert inc. induction edges as [|e edges IH]; intros inc; simpl; [lia|].
  etransitivity; [apply IH|].
  pose proof (pot_insert inc (target e) (get0 inc (target e) + 1)). lia.
Qed.

Lemma weight_initState ids edges :
  (weight (initState ids edges) <= budget ids edges)%nat.
Proof.
  unfold weight, initState, budget, initQueue, buildMaps. cbn [queue incoming].
  rewrite buildMaps_snd_aux.
  pose proof (pot_add_edges edges (initIncoming ids)) as Hp.
  rewrite pot_initIncoming in Hp.
  pose proof (length_filter (fun i : string =>
    get0 (foldl (fun m e => <[target e := get0 m (target e) + 1]> m)
            (initIncoming ids) edges) i = 0) ids).
  lia.
Qed.

Lemma run_sort ids edges fuel :
  (budget ids edges <= fuel)%nat -> run fuel ids edges = Some (sort ids edges).
Proof.
  intros Hle. unfold sort, run.
  destruct (loop_enough_fuel (buildMaps ids edges).1 _ _ (weight_initState ids edges))
    as [r Hr].
  unfold run. rewrite Hr. simpl. eapply loop_more_fuel; eauto.
Qed.

End TopoTermination.

(** ** Contents of the two tables after the edge pass *)

Module TopoTables.
Import Topo TopoSpec TopoTermination.

Lemma succs_insert_eq (o : gmap string (list string)) k l : succs (<[k := l]> o) k = l.
Proof. unfold succs. by rewrite lookup_insert_eq. Qed.

Lemma succs_insert_ne (o : gmap string (list string)) k j l :
  k ≠ j -> succs (<[k := l]> o) j = succs o j.
Proof. intros. unfold succs. by rewrite lookup_insert_ne. Qed.

Lemma succs_addEdge o inc e v :
  succs (addEdge (o, inc) e).1 v
  = succs o v ++ (if decide (source e = v) then [target e] else []).
Proof.
  unfold addEdge. cbn [fst].
  assert (Hs : succs (if decide (is_Some (o !! source e)) then o
                      else <[source e := []]> o) (source e) = succs o (source e)).
  { case_decide as Hd; [done|]. rewrite succs_insert_eq.
    unfold succs. destruct (o !! source e) eqn:E; [|done].
    exfalso. apply Hd. by eexists. }
  destruct (decide (source e = v)) as [<-|Hv].
  - rewrite succs_insert_eq. by rewrite Hs.
  - rewrite succs_insert_ne by done. rewrite app_nil_r.
    case_decide; [done|]. by rewrite succs_insert_ne.
Qed.

Lemma succs_foldl_addEdge edges o inc v :
  succs (foldl addEdge (o, inc) edges).1 v
  = succs o v ++ (target <$> filter (fun e => source e = v) edges).
Proof.
  revert o inc. induction edges as [|e edges IH]; intros o inc; cbn [foldl].
  - by rewrite app_nil_r.
  - pose proof (succs_addEdge o inc e v) as Ha.
    destruct (addEdge (o, inc) e) as [o1 inc1]. rewrite IH. cbn [fst] in Ha.
    rewrite Ha, filter_cons. case_decide; simpl; by rewrite <- app_assoc.
Qed.

Lemma succs_initOut_aux ids (m : gmap string (list string)) v :
  succs m v = [] ->
  succs (foldl (fun (m : gmap string (list string)) (i : string) => <[i := []]> m) m ids) v = [].
Proof.
  revert m. induction ids as [|i ids IH]; intros m Hm; simpl; [done|].
  apply IH. destruct (decide (i = v)) as [->|].
  - by rewrite succs_insert_eq.
  - by rewrite succs_insert_ne.
Qed.

(** [out.get(v) || []] after the edge pass: the targets of the edges
    leaving [v], in edge order. *)
Lemma succs_buildMaps ids edges v :
  succs (buildMaps ids edges).1 v = target <$> filter (fun e => source e = v) edges.
Proof.
  unfold buildMaps. rewrite succs_foldl_addEdge.
  unfold initOut. by rewrite succs_initOut_aux.
Qed.

Lemma get0_initIncoming_aux ids (m : gmap string Z) v :
  get0 m v = 0 ->
  get0 (foldl (fun (m : gmap string Z) (i : string) => <[i := 0]> m) m ids) v = 0.
Proof.
  revert m. induction ids as [|i ids IH]; intros m Hm; simpl; [done|].
  apply IH. destruct (decide (i = v)) as [->|].
  - by rewrite get0_insert_eq.
  - by rewrite get0_insert_ne.
Qed.

Lemma get0_add_edges edges (inc : gmap string Z) u :
  get0 (foldl (fun (m : gmap string Z) e => <[target e := get0 m (target e) + 1]> m)
          inc edges) u
  = get0 inc u + Z.of_nat (length (filter (fun e => target e = u) edges)).
Proof.
  revert inc. induction edges as [|e edges IH]; intros inc; cbn [foldl].
  - simpl. lia.
  - rewrite IH, filter_cons. case_decide as Hd.
    + rewrite Hd, get0_insert_eq. simpl length. lia.
    + by rewrite get0_insert_ne.
Qed.

(** The in-degree table after the edge pass counts, for every id, the
    edges that point at it (whatever their source). *)
Lemma get0_buildMaps ids edges u :
  get0 (buildMaps ids edges).2 u = Z.of_nat (pending edges [] u).
Proof.
  unfold buildMaps. rewrite buildMaps_snd_aux, get0_add_edges.
  unfold initIncoming. rewrite get0_initIncoming_aux by done.
  unfold pending. rewrite Z.add_0_l. do 2 f_equal. apply list_filter_iff.
  intros e. split; [intros ?; split; [done | apply not_elem_of_nil] | by intros [? _]].
Qed.

Lemma pending_snoc edges res v u :
  v ∉ res ->
  pending edges res u
  = (pending edges (res ++ [v]) u
     + occ u (target <$> filter (fun e => source e = v) edges))%nat.
Proof.
  intros Hv. unfold pending, occ.
  induction edges as [|e edges IH]; [done|].
  rewrite !filter_cons.
  destruct (decide (source e = v)) as [Hs|Hs].
  - rewrite fmap_cons, filter_cons.
    destruct (decide (target e = u)) as [Ht|Ht].
    + rewrite decide_True by (split; [done | by rewrite Hs]).
      rewrite decide_False
        by (intros [_ Hn]; apply Hn; rewrite Hs, elem_of_app, list_elem_of_singleton; auto).
      simpl. rewrite IH. lia.
    + rewrite !decide_False by (by intros [? _]). done.
  - destruct (decide (target e = u ∧ source e ∉ res)) as [[Ht Hn]|Hn].
    + rewrite decide_True.
      * simpl. by rewrite IH.
      * split; [done|]. rewrite elem_of_app, list_elem_of_singleton. intros [?|?]; done.
    + rewrite decide_False; [done|]. intros [Ht Hn']. apply Hn. split; [done|].
      intros Hin. apply Hn'. rewrite elem_of_app. by left.
Qed.

Lemma pending_zero edges res u e :
  pending edges res u = 0%nat -> e ∈ edges -> target e = u -> source e ∈ res.
Proof.
  unfold pending. intros Hz He Ht.
  destruct (decide (source e ∈ res)) as [|Hn]; [done|].
  assert (e ∈ filter (fun e => target e = u ∧ source e ∉ res) edges) as Hin
    by (apply list_elem_of_filter; done).
  destruct (filter _ edges); [by apply not_elem_of_nil in Hin | done].
Qed.

Lemma pending_pos edges res u :
  pending edges res u ≠ 0%nat ->
  exists e, e ∈ edges ∧ target e = u ∧ source e ∉ res.
Proof.
  unfold pending. intros Hz.
  destruct (filter (fun e => target e = u ∧ source e ∉ res) edges) as [|e l] eqn:E; [done|].
  assert (e ∈ filter (fun e => target e = u ∧ source e ∉ res) edges) as Hin
    by (rewrite E; left).
  apply list_elem_of_filter in Hin as [[? ?] ?]. by exists e.
Qed.

End TopoTables.

(** ** Loop invariants of the orderer *)

Module TopoInvariant.
Import Topo TopoSpec TopoTermination TopoTables.

(** Whatever holds initially and is kept by every iteration holds of the
    state in which the loop exits. *)
Lemma loop_invariant (P : LoopState -> Prop) out :
  (forall st v q', P st -> queue st = v :: q' -> P (iteration out v q' st)) ->
  forall fuel st r, P st -> loop fuel out st = Some r ->
  exists st', P st' ∧ queue st' = [] ∧ result st' = r.
Proof.
  intros Hstep fuel. induction fuel as [|fuel IH]; intros st r HP; simpl.
  - destruct (queue st) eqn:Hq; [|done]. intros [= <-]. eauto.
  - destruct (queue st) as [|v q'] eqn:Hq.
    + intros [= <-]. eauto.
    + intros Hr. eapply IH; [|exact Hr]. by apply Hstep.
Qed.

Section with_graph.
Variable ids : list string.
Variable edges : list Edge.

(** *** Provenance: what can enter the queue *)

Local Abbreviation known := (TopoSpec.known ids edges).
Local Abbreviation Prov := (TopoSpec.Prov ids edges).
Local Abbreviation Inner := (TopoSpec.Inner ids edges).
Local Abbreviation Outer := (TopoSpec.Outer ids edges).

Lemma relax_prov inc q u :
  known u -> (forall w, w ∈ q -> known w) ->
  forall w, w ∈ (relax (inc, q) u).2 -> known w.
Proof.
  intros Hu Hq w. unfold relax. cbn [snd]. case_decide; [|by auto].
  rewrite elem_of_app, list_elem_of_singleton. intros [?| ->]; auto.
Qed.

Lemma foldl_relax_prov us inc q :
  (forall u, u ∈ us -> known u) -> (forall w, w ∈ q -> known w) ->
  forall w, w ∈ (foldl relax (inc, q) us).2 -> known w.
Proof.
  revert inc q. induction us as [|u us IH]; intros inc q Hus Hq; cbn [foldl]; [done|].
  pose proof (relax_prov inc q u (Hus u ltac:(left)) Hq) as Hr.
  destruct (relax (inc, q) u) as [inc1 q1]. apply IH; [|exact Hr].
  intros ? ?. apply Hus. by right.
Qed.

Lemma succs_known v u : u ∈ succs (buildMaps ids edges).1 v -> known u.
Proof.
  rewrite succs_buildMaps. intros Hu. right.
  apply list_elem_of_fmap in Hu as (e & -> & He).
  apply list_elem_of_fmap. exists e. split; [done|].
  by apply list_elem_of_filter in He as [_ ?].
Qed.

Lemma Prov_iteration st v q' :
  Prov st -> queue st = v :: q' -> Prov (iteration (buildMaps ids edges).1 v q' st).
Proof.
  intros HP Hq w. unfold iteration.
  pose proof (foldl_relax_prov (succs (buildMaps ids edges).1 v) (incoming st) q') as Hf.
  destruct (foldl relax (incoming st, q') _) as [inc1 q1]. cbn [result queue snd] in *.
  rewrite !elem_of_app, list_elem_of_singleton. intros [[Hw| ->]|Hw].
  - apply HP. rewrite elem_of_app. by left.
  - apply HP. rewrite Hq, elem_of_app. right. left.
  - apply Hf; [apply succs_known | | done].
    intros x Hx. apply HP. rewrite Hq, elem_of_app. right. by right.
Qed.

Lemma Prov_init : Prov (initState ids edges).
Proof.
  intros w. unfold initState, initQueue. cbn [result queue]. rewrite app_nil_l.
  intros Hw. apply list_elem_of_filter in Hw as [_ ?]. by left.
Qed.

(** *** Counting: each id is emitted once, after its sources *)

Lemma occ_nil u : occ u [] = 0%nat.
Proof. done. Qed.

Lemma occ_cons_eq u us : occ u (u :: us) = S (occ u us).
Proof. unfold occ. rewrite filter_cons. by rewrite decide_True. Qed.

Lemma occ_cons_ne u x us : x ≠ u -> occ u (x :: us) = occ u us.
Proof. intros. unfold occ. rewrite filter_cons. by rewrite decide_False. Qed.

Lemma Inner_relax res u us inc q :
  Inner res (u :: us) inc q ->
  Inner res us (relax (inc, q) u).1 (relax (inc, q) u).2.
Proof.
  intros [Hnd Hcnt Hzero Hready]. unfold relax. cbn [fst snd].
  rewrite get0_insert_eq.
  assert (Hu : get0 inc u - 1 = Z.of_nat (pending edges res u + occ u us)).
  { rewrite (Hcnt u), occ_cons_eq. lia. }
  assert (Hfresh : u ∉ res ++ q).
  { intros Hin. apply Hzero in Hin. lia. }
  assert (Hother : forall w, w ≠ u ->
            get0 (<[u := get0 inc u - 1]> inc) w = get0 inc w).
  { intros w Hw. by rewrite get0_insert_ne. }
  split.
  - case_decide; [|done]. rewrite app_assoc. apply NoDup_app. split; [done|].
    split; [|apply NoDup_singleton].
    intros x Hx. rewrite list_elem_of_singleton. by intros ->.
  - intros w. destruct (decide (w = u)) as [->|Hw].
    + by rewrite get0_insert_eq.
    + rewrite Hother by done. rewrite (Hcnt w), occ_cons_ne; done.
  - intros w Hw. destruct (decide (w = u)) as [->|Hne].
    + rewrite get0_insert_eq. case_decide; [done|].
      by destruct Hfresh.
    + rewrite Hother by done. apply Hzero.
      case_decide; [|done]. rewrite app_assoc, elem_of_app in Hw.
      destruct Hw as [?|Hw]; [done|]. by apply list_elem_of_singleton in Hw.
  - intros w Hw. destruct (decide (w = u)) as [->|Hne].
    + rewrite get0_insert_eq. intros Hz. rewrite decide_True by done.
      rewrite app_assoc, elem_of_app. right. left.
    + rewrite Hother by done. intros Hz. specialize (Hready w Hw Hz).
      case_decide; [|done]. rewrite app_assoc, elem_of_app. by left.
Qed.

Lemma Inner_foldl res us inc q :
  Inner res us inc q ->
  Inner res [] (foldl relax (inc, q) us).1 (foldl relax (inc, q) us).2.
Proof.
  revert inc q. induction us as [|u us IH]; intros inc q HI; cbn [foldl]; [done|].
  apply Inner_relax in HI. destruct (relax (inc, q) u) as [inc1 q1]. by apply IH.
Qed.

Lemma snoc_split (l1 l2 res : list string) x v :
  l1 ++ x :: l2 = res ++ [v] ->
  (l2 = [] ∧ x = v ∧ l1 = res) ∨ exists l2', res = l1 ++ x :: l2'.
Proof.
  destruct l2 as [|y l2 _] using rev_ind.
  - intros H. apply app_inj_tail in H as [-> ->]. by left.
  - intros H. right. exists l2.
    replace (l1 ++ x :: l2 ++ [y]) with ((l1 ++ x :: l2) ++ [y]) in H
      by (by rewrite <- app_assoc).
    by apply app_inj_tail in H as [<- _].
Qed.

Lemma Outer_iteration st v q' :
  Outer st -> queue st = v :: q' ->
  Outer (iteration (buildMaps ids edges).1 v q' st).
Proof.
  intros [[Hnd Hcnt Hzero Hready] Hord] Hq. rewrite Hq in *.
  assert (Hv : v ∉ result st).
  { apply NoDup_app in Hnd as (_ & Hd & _). intros Hin. apply (Hd v Hin). left. }
  assert (HI : Inner (result st ++ [v]) (succs (buildMaps ids edges).1 v)
                 (incoming st) q').
  { split.
    - by rewrite <- app_assoc.
    - intros u. rewrite (Hcnt u), succs_buildMaps.
      rewrite (pending_snoc edges (result st) v u Hv), occ_nil. lia.
    - intros w Hw. apply Hzero. by rewrite <- app_assoc in Hw.
    - intros w Hw Hz. rewrite <- app_assoc. by apply Hready. }
  apply Inner_foldl in HI. unfold iteration.
  destruct (foldl relax (incoming st, q') _) as [inc1 q1]. cbn [fst snd] in HI.
  split; cbn [result incoming queue]; [done|].
  intros e l1 l2 He Hsplit. symmetry in Hsplit.
  apply snoc_split in Hsplit as [(_ & Ht & ->)|[l2' Hres]].
  - apply (pending_zero edges (result st) v e); [|done..].
    specialize (Hcnt v). rewrite Hzero in Hcnt by (apply elem_of_app; right; left).
    rewrite occ_nil in Hcnt. lia.
  - by eapply Hord.
Qed.

Lemma Outer_init : NoDup ids -> Outer (initState ids edges).
Proof.
  intros Hnd. unfold initState, initQueue. split; cbn [result incoming queue].
  - split.
    + rewrite app_nil_l. by apply NoDup_filter.
    + intros u. rewrite get0_buildMaps, occ_nil. lia.
    + intros w. rewrite app_nil_l. intros Hw.
      by apply list_elem_of_filter in Hw as [? _].
    + intros w Hw Hz. rewrite app_nil_l. by apply list_elem_of_filter.
  - intros e l1 l2 _ H. by destruct l1.
Qed.

(** The state in which [sort] leaves the loop. *)
Lemma sort_final (P : LoopState -> Prop) :
  P (initState ids edges) ->
  (forall st v q', P st -> queue st = v :: q' ->
     P (iteration (buildMaps ids edges).1 v q' st)) ->
  exists st', P st' ∧ queue st' = [] ∧ result st' = sort ids edges.
Proof.
  intros Hinit Hstep.
  eapply (loop_invariant P _ Hstep (budget ids edges)); [exact Hinit|].
  by apply (run_sort ids edges (budget ids edges)).
Qed.

Lemma sort_Outer :
  NoDup ids -> exists st, Outer st ∧ queue st = [] ∧ result st = sort ids edges.
Proof.
  intros Hnd. apply sort_final; [by apply Outer_init | apply Outer_iteration].
Qed.

Lemma sort_known w : w ∈ sort ids edges -> known w.
Proof.
  destruct (sort_final Prov Prov_init Prov_iteration) as (st & HP & Hq & <-).
  intros Hw. apply HP. rewrite elem_of_app. by left.
Qed.

Lemma sort_NoDup : NoDup ids -> NoDup (sort ids edges).
Proof.
  intros Hnd. destruct (sort_Outer Hnd) as (st & [[H _ _ _] _] & Hq & <-).
  by rewrite Hq, app_nil_r in H.
Qed.

End with_graph.
End TopoInvariant.

(** ** Acyclic edge sets *)

Module Acyclic.

(** A ranking that grows along every edge rules out cycles. *)
Lemma acyclic_of_rank (edges : list Edge) (rank : string -> nat) :
  (forall e, e ∈ edges -> (rank (source e) < rank (target e))%nat) ->
  acyclic edges.
Proof.
  intros Hrank u Hcyc.
  assert (Hlt : forall a b, tc (has_edge edges) a b -> (rank a < rank b)%nat).
  { intros a b Hab. induction Hab as [a b (e & He & <- & <-)|a b c (e & He & <- & <-) _ IH].
    - by apply Hrank.
    - specialize (Hrank e He). lia. }
  specialize (Hlt u u Hcyc). lia.
Qed.

(** In an acyclic graph, a finite set of ids in which every member has a
    predecessor inside the set is empty. *)
Lemma no_closed_set (R : relation string) :
  (forall u, ¬ tc R u u) ->
  forall n (S : list string), (length S <= n)%nat ->
    (forall x, x ∈ S -> exists y, y ∈ S ∧ tc R y x) -> S = [].
Proof.
  intros Hacyc n. induction n as [|n IH]; intros S Hlen Hclosed.
  - destruct S; [done | simpl in Hlen; lia].
  - destruct S as [|x S0]; [done|]. exfalso.
    set (S' := filter (fun y => y ≠ x) S0).
    assert (Hmem : forall y, y ∈ x :: S0 -> y = x ∨ y ∈ S').
    { intros y Hy. destruct (decide (y = x)) as [|Hne]; [by left|]. right.
      apply list_elem_of_filter. split; [done|].
      apply elem_of_cons in Hy as [?|?]; done. }
    assert (Hsub : forall y, y ∈ S' -> y ∈ x :: S0).
    { intros y Hy. apply list_elem_of_filter in Hy as [_ ?]. by right. }
    assert (Hx : exists z, z ∈ S' ∧ tc R z x).
    { destruct (Hclosed x ltac:(left)) as (z & Hz & Hzx).
      destruct (Hmem z Hz) as [->|Hz']; [by destruct (Hacyc x) | eauto]. }
    assert (HS' : S' = []).
    { apply IH.
      - pose proof (length_filter (fun y => y ≠ x) S0). simpl in Hlen.
        unfold S'. lia.
      - intros y Hy. destruct (Hclosed y (Hsub y Hy)) as (z & Hz & Hzy).
        destruct (Hmem z Hz) as [->|Hz']; [|eauto].
        destruct Hx as (z' & Hz' & Hz'x). exists z'. split; [done|].
        by etransitivity. }
    destruct Hx as (z & Hz & _). rewrite HS' in Hz. by apply not_elem_of_nil in Hz.
Qed.

End Acyclic.

(** ** Properties of the orderer *)

Section orderer_properties.
Import Topo TopoSpec TopoTermination TopoTables TopoInvariant.

Lemma topologicalSort_fuel_enough nodes edges fuel :
  (length nodes + length edges <= fuel)%nat ->
  topologicalSort_fuel fuel nodes edges = Some (topologicalSort nodes edges).
Proof.
  intros Hle. apply run_sort. unfold budget. by rewrite length_fmap.
Qed.

Lemma foldl_relax_queue us inc q :
  exists pushed, (foldl relax (inc, q) us).2 = q ++ pushed
                 ∧ (length pushed <= length us)%nat.
Proof.
  revert inc q. induction us as [|u us IH]; intros inc q; cbn [foldl].
  - exists []. by rewrite app_nil_r.
  - unfold relax at 2. case_decide.
    + destruct (IH (<[u := get0 inc u - 1]> inc) (q ++ [u])) as (p & -> & Hp).
      exists (u :: p). rewrite <- app_assoc. split; [done | simpl; lia].
    + destruct (IH (<[u := get0 inc u - 1]> inc) q) as (p & -> & Hp).
      exists p. split; [done | simpl; lia].
Qed.

(** Each iteration takes the head off the queue, appends it to the
    result and only ever appends to the rest of the queue, at most one
    id per decrement. *)
Lemma iteration_shape out v q' st :
  exists pushed,
    queue (iteration out v q' st) = q' ++ pushed
    ∧ result (iteration out v q' st) = result st ++ [v]
    ∧ (length pushed <= length (succs out v))%nat.
Proof.
  unfold iteration.
  destruct (foldl_relax_queue (succs out v) (incoming st) q') as (p & Hp & Hl).
  destruct (foldl relax (incoming st, q') (succs out v)) as [inc1 q1].
  cbn [snd] in Hp. subst q1. exists p. done.
Qed.

Lemma loopCount_spec out fuel st enq dec r enq' dec' n0 :
  loopCount fuel out st enq dec = Some (r, enq', dec') ->
  enq = (length (result st) + length (queue st))%nat ->
  (enq <= n0 + dec)%nat ->
  loop fuel out st = Some r ∧ enq' = length r ∧ (enq' <= n0 + dec')%nat.
Proof.
  revert st enq dec. induction fuel as [|fuel IH]; intros st enq dec; simpl.
  - destruct (queue st) eqn:Hq; [|done]. intros [= <- <- <-] -> Hle.
    simpl in *. split; [done|]. split; lia.
  - destruct (queue st) as [|v q'] eqn:Hq.
    + intros [= <- <- <-] -> Hle. simpl in *. split; [done|]. split; lia.
    + intros Hrun -> Hle. eapply IH; [exact Hrun| |].
      * destruct (iteration_shape out v q' st) as (p & -> & -> & Hp).
        rewrite !length_app. simpl. lia.
      * destruct (iteration_shape out v q' st) as (p & -> & _ & Hp).
        rewrite !length_app. simpl in *. lia.
Qed.

Lemma loopCount_enough_fuel out fuel st enq dec :
  (weight st <= fuel)%nat -> is_Some (loopCount fuel out st enq dec).
Proof.
  revert st enq dec. induction fuel as [|fuel IH]; intros st enq dec Hw; simpl.
  - destruct (queue st) as [|v q'] eqn:Hq; [by eexists|].
    unfold weight in Hw. rewrite Hq in Hw. simpl in Hw. lia.
  - destruct (queue st) as [|v q'] eqn:Hq; [by eexists|].
    apply IH. pose proof (iteration_weight out v q' st Hq). lia.
Qed.

Lemma sort_length_bound ids edges :
  (length (sort ids edges) <= length ids + length edges)%nat.
Proof.
  assert (Hgen : forall out fuel st r, loop fuel out st = Some r ->
            (length r <= length (result st) + weight st)%nat).
  { intros out fuel. induction fuel as [|fuel IH]; intros st r; simpl.
    - destruct (queue st) eqn:Hq; [|done]. intros [= <-]. lia.
    - destruct (queue st) as [|v q'] eqn:Hq.
      + intros [= <-]. lia.
      + intros Hr. apply IH in Hr.
        pose proof (iteration_weight out v q' st Hq).
        destruct (iteration_shape out v q' st) as (p & _ & Hres & _).
        rewrite Hres, length_app in Hr. simpl in Hr. lia. }
  pose proof (run_sort ids edges (budget ids edges) ltac:(done)) as Hrun.
  apply Hgen in Hrun. pose proof (weight_initState ids edges).
  unfold budget in *. simpl in Hrun. lia.
Qed.

(** C6: on every node list and edge list (cyclic, parallel and dangling
    edges included) the orderer's loop stops within |N| + |E| iterations
    and returns.  With the ghost counters of [loopCount]: the number of
    ids ever enqueued equals the number of ids returned, each iteration
    having removed exactly one, and it is at most |N| plus the number of
    in-degree decrements performed. *)
Theorem topologicalSort_terminates (nodes : list Node) (edges : list Edge) :
  exists res enq dec,
    topologicalSort_fuel (length nodes + length edges) nodes edges = Some res
    ∧ res = topologicalSort nodes edges
    ∧ runCount (length nodes + length edges) (id <$> nodes) edges = Some (res, enq, dec)
    ∧ enq = length res
    ∧ (enq <= length nodes + dec)%nat
    ∧ (length res <= length nodes + length edges)%nat.
Proof.
  set (ids := id <$> nodes).
  assert (Hb : budget ids edges = (length nodes + length edges)%nat)
    by (unfold budget, ids; by rewrite length_fmap).
  destruct (loopCount_enough_fuel (buildMaps ids edges).1 (budget ids edges)
              (initState ids edges) (length (queue (initState ids edges))) 0
              (weight_initState ids edges)) as [[[r enq] dec] Hrun].
  pose proof (loopCount_spec _ _ _ _ _ _ _ _ (length nodes) Hrun) as Hspec.
  destruct Hspec as (Hloop & Henq & Hle).
  { done. }
  { unfold initState, initQueue. cbn [queue].
    pose proof (length_filter (fun i : string => get0 (buildMaps ids edges).2 i = 0) ids).
    unfold ids in *. rewrite length_fmap in *. lia. }
  assert (Hr : r = topologicalSort nodes edges).
  { pose proof (run_sort ids edges (budget ids edges) ltac:(done)) as Hs.
    unfold run in Hs. rewrite Hloop in Hs. by injection Hs. }
  pose proof (sort_length_bound ids edges) as Hl.
  unfold ids in Hl at 2. rewrite length_fmap in Hl.
  exists r, enq, dec. split; [|split; [|split; [|split; [|split]]]].
  - rewrite Hr. by apply topologicalSort_fuel_enough.
  - done.
  - unfold runCount. by rewrite <- Hb.
  - done.
  - done.
  - by rewrite Hr.
Qed.

(** C5, as the code has it: the orderer returns on every input, dangling
    edges included, and every id it returns is the id of a node or the
    target of an edge.  An id that occurs only as the source of an edge
    is never returned. *)
Theorem topologicalSort_members (nodes : list Node) (edges : list Edge) :
  topologicalSort_fuel (length nodes + length edges) nodes edges
    = Some (topologicalSort nodes edges)
  ∧ forall x, x ∈ topologicalSort nodes edges ->
      x ∈ (id <$> nodes) ∨ x ∈ (target <$> edges).
Proof.
  split; [by apply topologicalSort_fuel_enough|].
  intros x Hx. by apply sort_known in Hx.
Qed.

(** C3: in a graph whose node ids are pairwise distinct, whenever both
    ends of an edge occur in the returned sequence, the source occurs at
    a strictly smaller index than the target. *)
Theorem topologicalSort_order (nodes : list Node) (edges : list Edge)
  (e : Edge) (i j : nat) :
  NoDup (id <$> nodes) ->
  e ∈ edges ->
  topologicalSort nodes edges !! i = Some (source e) ->
  topologicalSort nodes edges !! j = Some (target e) ->
  (i < j)%nat.
Proof.
  intros Hnd He Hi Hj. unfold topologicalSort in *.
  destruct (sort_Outer (id <$> nodes) edges Hnd) as (st & [[Hnd' _ _ _] Hord] & Hq & Hres).
  rewrite Hq, app_nil_r, Hres in Hnd'. rewrite Hres in Hord.
  pose proof (take_drop_middle _ _ _ Hj) as Hsplit. symmetry in Hsplit.
  apply (Hord e _ _ He) in Hsplit.
  apply list_elem_of_lookup in Hsplit as [i' Hi'].
  pose proof (lookup_lt_Some _ _ _ Hi') as Hlt. rewrite length_take in Hlt.
  rewrite lookup_take_lt in Hi' by lia.
  rewrite (NoDup_lookup _ i i' _ Hnd' Hi Hi'). lia.
Qed.

Lemma topologicalSort_NoDup nodes edges :
  NoDup (id <$> nodes) -> NoDup (topologicalSort nodes edges).
Proof. apply sort_NoDup. Qed.

(** Every node is returned when the graph is acyclic and no edge has an
    unknown source. *)
Lemma topologicalSort_complete nodes edges :
  NoDup (id <$> nodes) ->
  (forall e, e ∈ edges -> source e ∈ (id <$> nodes)) ->
  acyclic edges ->
  forall x, x ∈ (id <$> nodes) -> x ∈ topologicalSort nodes edges.
Proof.
  intros Hnd Hsrc Hacyc. unfold topologicalSort.
  destruct (sort_Outer (id <$> nodes) edges Hnd)
    as (st & [[_ Hcnt _ Hready] _] & Hq & Hres).
  rewrite Hq, app_nil_r, Hres in Hready. rewrite Hres in Hcnt.
  set (r := sort (id <$> nodes) edges) in *.
  set (S := filter (fun x => x ∉ r) (id <$> nodes)).
  assert (HS : S = []).
  { apply (Acyclic.no_closed_set (has_edge edges) Hacyc (length S)); [done|].
    intros x Hx. apply list_elem_of_filter in Hx as [Hxr Hxn].
    assert (Hp : pending edges r x ≠ 0%nat).
    { intros Hz. apply Hxr, Hready; [done|]. rewrite Hcnt, Hz, occ_nil. done. }
    apply pending_pos in Hp as (e & He & Ht & Hs).
    exists (source e). split.
    - apply list_elem_of_filter. split; [done | by apply Hsrc].
    - apply tc_once. by exists e. }
  intros x Hx. destruct (decide (x ∈ r)) as [|Hn]; [done|].
  assert (x ∈ S) as Hin by (apply list_elem_of_filter; done).
  rewrite HS in Hin. by apply not_elem_of_nil in Hin.
Qed.

(** C4, as the code has it: for pairwise distinct node ids and an edge
    list without dangling edges that induces no cycle, the returned
    sequence has exactly |N| elements. *)
Theorem topologicalSort_total (nodes : list Node) (edges : list Edge) :
  NoDup (id <$> nodes) ->
  no_dangling nodes edges ->
  acyclic edges ->
  length (topologicalSort nodes edges) = length nodes.
Proof.
  intros Hnd Hdang Hacyc.
  rewrite <- (length_fmap id nodes). apply Nat.le_antisymm.
  - apply submseteq_length, NoDup_submseteq; [by apply topologicalSort_NoDup|].
    intros x Hx. apply sort_known in Hx as [?|Hx]; [done|].
    apply list_elem_of_fmap in Hx as (e & -> & He). by apply Hdang.
  - apply submseteq_length, NoDup_submseteq; [done|].
    apply topologicalSort_complete; [done | | done].
    intros e He. by apply Hdang.
Qed.

End orderer_properties.

(** *** Concrete runs of the orderer *)

Lemma topologicalSort_order_witness :
  let nodes := [newNode "a" "Data"; newNode "b" "Model"; newNode "c" "Loss"] in
  let edges := [mkEdge "b" "c"; mkEdge "a" "b"] in
  NoDup (id <$> nodes)
  ∧ mkEdge "a" "b" ∈ edges
  ∧ topologicalSort nodes edges !! 0%nat = Some "a"
  ∧ topologicalSort nodes edges !! 1%nat = Some "b"
  ∧ (0 < 1)%nat.
Proof.
  cbv zeta.
  assert (Hnd : NoDup (id <$> [newNode "a" "Data"; newNode "b" "Model"; newNode "c" "Loss"]))
    by compute_done.
  assert (He : mkEdge "a" "b" ∈ [mkEdge "b" "c"; mkEdge "a" "b"]) by compute_done.
  assert (H0 : topologicalSort [newNode "a" "Data"; newNode "b" "Model"; newNode "c" "Loss"]
                 [mkEdge "b" "c"; mkEdge "a" "b"] !! 0%nat = Some "a")
    by (vm_compute; reflexivity).
  assert (H1 : topologicalSort [newNode "a" "Data"; newNode "b" "Model"; newNode "c" "Loss"]
                 [mkEdge "b" "c"; mkEdge "a" "b"] !! 1%nat = Some "b")
    by (vm_compute; reflexivity).
  repeat (split; [assumption|]).
  exact (topologicalSort_order _ _ (mkEdge "a" "b") 0 1 Hnd He H0 H1).
Defined.

(** With a dangling target the sequence is longer than |N|, with a
    dangling source it is shorter, although neither edge list has a
    cycle. *)
Lemma topologicalSort_total_counterexample :
  (acyclic [mkEdge "a" "x"]
   ∧ length (topologicalSort [newNode "a" "Data"] [mkEdge "a" "x"])
       ≠ length [newNode "a" "Data"])
  ∧ (acyclic [mkEdge "x" "a"]
     ∧ length (topologicalSort [newNode "a" "Data"] [mkEdge "x" "a"])
         ≠ length [newNode "a" "Data"]).
Proof.
  split; split.
  - apply (Acyclic.acyclic_of_rank _ (fun s => if decide (s = "a") then 0 else 1)%nat).
    intros e He. apply list_elem_of_singleton in He as ->. vm_compute. lia.
  - vm_compute. lia.
  - apply (Acyclic.acyclic_of_rank _ (fun s => if decide (s = "x") then 0 else 1)%nat).
    intros e He. apply list_elem_of_singleton in He as ->. vm_compute. lia.
  - vm_compute. lia.
Qed.

Lemma topologicalSort_total_witness :
  NoDup (id <$> [newNode "a" "Data"; newNode "b" "Model"])
  ∧ no_dangling [newNode "a" "Data"; newNode "b" "Model"] [mkEdge "a" "b"]
  ∧ acyclic [mkEdge "a" "b"]
  ∧ length (topologicalSort [newNode "a" "Data"; newNode "b" "Model"] [mkEdge "a" "b"])
    = length [newNode "a" "Data"; newNode "b" "Model"].
Proof.
  assert (Hnd : NoDup (id <$> [newNode "a" "Data"; newNode "b" "Model"]))
    by compute_done.
  assert (Hdang : no_dangling [newNode "a" "Data"; newNode "b" "Model"] [mkEdge "a" "b"]).
  { intros e He. apply list_elem_of_singleton in He as ->. split; compute_done. }
  assert (Hacyc : acyclic [mkEdge "a" "b"]).
  { apply (Acyclic.acyclic_of_rank _ (fun s => if decide (s = "a") then 0 else 1)%nat).
    intros e He. apply list_elem_of_singleton in He as ->. vm_compute. lia. }
  split; [exact Hnd|]. split; [exact Hdang|]. split; [exact Hacyc|].
  exact (topologicalSort_total _ _ Hnd Hdang Hacyc).
Defined.

(** The target of a dangling edge is returned although it names no
    node. *)
Lemma topologicalSort_members_counterexample :
  ¬ (forall x, x ∈ topologicalSort [newNode "a" "Data"] [mkEdge "a" "x"] ->
               x ∈ (id <$> [newNode "a" "Data"])).
Proof.
  intros H. specialize (H "x"). revert H. compute_done.
Qed.

(** The data model excludes repeated node ids; with a repeated id the
    loop decrements a target once per copy and the order of C3 can
    fail. *)
Remark topologicalSort_repeated_id :
  topologicalSort [newNode "a" "Data"; newNode "a" "Data"]
    [mkEdge "a" "b"; mkEdge "c" "b"; mkEdge "b" "c"] = ["a"; "a"; "b"; "c"].
Proof. vm_compute. reflexivity. Qed.

(** ** Properties of the validator *)

Section validator_properties.




End validator_properties.

(** ** Properties of the emitter *)

Module EmitterFacts.
Import Topo TopoSpec TopoInvariant.

Lemma find_elem_of {A} (f : A -> bool) (l : list A) x :
  List.find f l = Some x -> x ∈ l ∧ f x = true.
Proof. intros H. apply find_some in H as [? ?]. by rewrite list_elem_of_In. Qed.

Lemma find_is_Some {A} (f : A -> bool) (l : list A) x :
  x ∈ l -> f x = true -> exists y, List.find f l = Some y.
Proof.
  intros Hin Hf. destruct (List.find f l) as [y|] eqn:E; [by eexists|].
  apply list_elem_of_In in Hin. pose proof (find_none _ _ E x Hin). congruence.
Qed.

Lemma elem_of_rev {A} (l : list A) x : x ∈ rev l ↔ x ∈ l.
Proof. rewrite !list_elem_of_In. symmetry. apply in_rev. Qed.

Lemma byIdLookup_known nodes k :
  k ∈ (id <$> nodes) ->
  exists n, byIdLookup nodes k = Some (Own n) ∧ n ∈ nodes ∧ id n = k.
Proof.
  intros Hk. apply list_elem_of_fmap in Hk as (n & -> & Hn).
  destruct (find_is_Some (fun m => String.eqb (id m) (id n)) (rev nodes) n) as [m Hm].
  - by rewrite elem_of_rev.
  - apply String.eqb_refl.
  - unfold byIdLookup. rewrite Hm. exists m. split; [done|].
    apply find_elem_of in Hm as [Hin Heq].
    rewrite elem_of_rev in Hin. apply String.eqb_eq in Heq. by split.
Qed.

Lemma byIdLookup_Own nodes k n :
  byIdLookup nodes k = Some (Own n) -> n ∈ nodes ∧ id n = k.
Proof.
  unfold byIdLookup.
  destruct (List.find _ (rev nodes)) as [m|] eqn:E.
  - intros [= <-]. apply find_elem_of in E as [Hin Heq].
    rewrite elem_of_rev in Hin. apply String.eqb_eq in Heq. by split.
  - by case_decide.
Qed.

Lemma byIdLookup_Inherited nodes k k' :
  byIdLookup nodes k = Some (Inherited k') ->
  k' = k ∧ k ∈ objectPrototypeKeys ∧ k ∉ (id <$> nodes).
Proof.
  intros H. destruct (decide (k ∈ id <$> nodes)) as [Hin|Hin].
  - apply byIdLookup_known in Hin as (n & Hn & _). congruence.
  - unfold byIdLookup in H. destruct (List.find _ (rev nodes)); [done|].
    case_decide; [|done]. by injection H as <-.
Qed.

Lemma readAll_Own ns : readAll (Own <$> ns) = Returned ns.
Proof.
  induction ns as [|n ns IH]; [done|].
  rewrite fmap_cons. cbn [readAll dataOf]. by rewrite IH.
Qed.

(** When every id of [order] names a node, nothing is dropped and
    nothing is inherited. *)
Lemma orderedNodes_resolved nodes order :
  (forall k, k ∈ order -> k ∈ (id <$> nodes)) ->
  exists ordered, orderedNodes nodes order = Own <$> ordered
                  ∧ id <$> ordered = order
                  ∧ forall n, n ∈ ordered -> n ∈ nodes.
Proof.
  unfold orderedNodes. induction order as [|k order IH]; intros Hk.
  - exists []. split; [done|]. split; [done|]. intros n Hn. by apply not_elem_of_nil in Hn.
  - destruct IH as (ordered & Heq & Hid & Hin).
    { intros k' Hk'. apply Hk. by right. }
    destruct (byIdLookup_known nodes k (Hk k ltac:(left))) as (n & Hn & Hnin & Hnid).
    exists (n :: ordered). cbn [omap list_omap]. rewrite Hn. cbn [fmap list_fmap].
    split; [by f_equal|]. split; [by f_equal|].
    intros m Hm. apply elem_of_cons in Hm as [->|Hm]; auto.
Qed.

(** When no id of [order] is inherited without being a node's id, ids
    that name no node are dropped and the rest are nodes of the graph. *)
Lemma orderedNodes_filtered nodes order :
  (forall k, k ∈ order -> k ∈ objectPrototypeKeys -> k ∈ (id <$> nodes)) ->
  exists ordered, orderedNodes nodes order = Own <$> ordered
                  ∧ forall n, n ∈ ordered -> n ∈ nodes ∧ id n ∈ order.
Proof.
  unfold orderedNodes. induction order as [|k order IH]; intros Hk.
  - exists []. split; [done|]. intros n Hn. by apply not_elem_of_nil in Hn.
  - destruct IH as (ordered & Heq & Hin).
    { intros k' Hk'. apply Hk. by right. }
    cbn [omap list_omap]. destruct (byIdLookup nodes k) as [[n|k']|] eqn:E.
    + apply byIdLookup_Own in E as [Hn Hid]. exists (n :: ordered).
      cbn [fmap list_fmap]. split; [by f_equal|].
      intros m Hm. apply elem_of_cons in Hm as [->|Hm].
      * split; [done|]. rewrite Hid. left.
      * destruct (Hin m Hm). split; [done | by right].
    + apply byIdLookup_Inherited in E as (_ & Hkey & Hnot).
      destruct Hnot. by apply Hk; [left|].
    + exists ordered. split; [done|]. intros m Hm. destruct (Hin m Hm).
      split; [done | by right].
Qed.

(** The emitter gets past its first pass whenever no reachable id is an
    inherited member of [Object.prototype]; it then works on nodes of
    the graph whose id the orderer returned, and on nothing else. *)
Lemma generatePyTorchCode_first_pass nodes edges pn :
  inherited_free nodes edges ->
  exists ordered,
    generatePyTorchCode nodes edges pn = emitScript ordered pn
    ∧ orderedNodes nodes (topologicalSort nodes edges) = Own <$> ordered
    ∧ forall n, n ∈ ordered -> n ∈ nodes ∧ id n ∈ topologicalSort nodes edges.
Proof.
  intros Hfree.
  destruct (orderedNodes_filtered nodes (topologicalSort nodes edges)) as (ordered & Heq & Hin).
  { intros k Hk Hkey. apply sort_known in Hk as [?|Hk]; [done|].
    apply list_elem_of_fmap in Hk as (e & -> & He). by apply Hfree. }
  exists ordered. unfold generatePyTorchCode. by rewrite Heq, readAll_Own.
Qed.

Lemma validateGraph_ok nodes edges :
  ok (validateGraph nodes edges) = true ->
  typeCount nodes NODE_TYPES.Model ≠ 0%nat
  ∧ typeCount nodes NODE_TYPES.Loss ≠ 0%nat
  ∧ typeCount nodes NODE_TYPES.Optimizer ≠ 0%nat
  ∧ length (topologicalSort nodes edges) = length nodes.
Proof.
  unfold validateGraph, pushIf.
  destruct (Nat.eqb_spec (typeCount nodes NODE_TYPES.Model) 0) as [Hm|Hm];
  destruct (Nat.eqb_spec (typeCount nodes NODE_TYPES.Loss) 0) as [Hl|Hl];
  destruct (Nat.eqb_spec (typeCount nodes NODE_TYPES.Optimizer) 0) as [Ho|Ho];
  cbn [app length Nat.eqb negb errors ok]; try discriminate.
  destruct (Nat.eqb_spec (length (topologicalSort nodes edges)) (length nodes)) as [Hc|Hc];
  cbn [app length Nat.eqb negb errors ok]; [done | discriminate].
Qed.

Lemma validateGraph_not_ok nodes edges :
  ok (validateGraph nodes edges) = false -> errors (validateGraph nodes edges) ≠ [].
Proof.
  unfold validateGraph, pushIf.
  destruct (Nat.eqb_spec (typeCount nodes NODE_TYPES.Model) 0) as [Hm|Hm];
  destruct (Nat.eqb_spec (typeCount nodes NODE_TYPES.Loss) 0) as [Hl|Hl];
  destruct (Nat.eqb_spec (typeCount nodes NODE_TYPES.Optimizer) 0) as [Ho|Ho];
  cbn [app length Nat.eqb negb errors ok]; try done.
  destruct (Nat.eqb_spec (length (topologicalSort nodes edges)) (length nodes)) as [Hc|Hc];
  cbn [app length Nat.eqb negb errors ok]; done.
Qed.

Lemma typeCount_pos nodes t :
  typeCount nodes t ≠ 0%nat -> exists n, n ∈ nodes ∧ hasType t n = true.
Proof.
  unfold typeCount. destruct (List.filter _ nodes) as [|n l] eqn:E; [done|]. intros _.
  assert (In n (List.filter (fun n => String.eqb (type (data n)) t) nodes)) as Hin
    by (rewrite E; left; done).
  apply filter_In in Hin as [Hin Hf]. exists n. by rewrite list_elem_of_In.
Qed.

(** On a well-formed graph that passes validation the emitter receives
    every node of the graph, arranged in the orderer's sequence. *)
Lemma valid_graph_ordered nodes edges pn :
  NoDup (id <$> nodes) ->
  no_dangling nodes edges ->
  ok (validateGraph nodes edges) = true ->
  exists ordered,
    generatePyTorchCode nodes edges pn = emitScript ordered pn
    ∧ id <$> ordered = topologicalSort nodes edges
    ∧ ordered ≡ₚ nodes.
Proof.
  intros Hnd Hdang Hok. apply validateGraph_ok in Hok as (_ & _ & _ & Hlen).
  assert (Hsub : forall k, k ∈ topologicalSort nodes edges -> k ∈ (id <$> nodes)).
  { intros k Hk. apply sort_known in Hk as [?|Hk]; [done|].
    apply list_elem_of_fmap in Hk as (e & -> & He). by apply Hdang. }
  destruct (orderedNodes_resolved nodes _ Hsub) as (ordered & Heq & Hid & Hin).
  exists ordered. split; [|split; [done|]].
  - unfold generatePyTorchCode. by rewrite Heq, readAll_Own.
  - apply submseteq_length_Permutation.
    + apply NoDup_submseteq; [|done].
      apply (NoDup_fmap_1 id). rewrite Hid. by apply sort_NoDup.
    + rewrite <- (length_fmap id ordered), Hid, Hlen. done.
Qed.

Lemma find_in_permuted (ordered nodes : list Node) t :
  ordered ≡ₚ nodes -> typeCount nodes t ≠ 0%nat ->
  exists n, List.find (hasType t) ordered = Some n ∧ n ∈ nodes.
Proof.
  intros Hperm Hcount. apply typeCount_pos in Hcount as (n & Hn & Ht).
  rewrite <- Hperm in Hn. destruct (find_is_Some _ _ _ Hn Ht) as [m Hm].
  exists m. split; [done|]. apply find_elem_of in Hm as [Hm _]. by rewrite <- Hperm.
Qed.


(** *** Lines of the script *)

Lemma lineCount_app line l1 l2 :
  lineCount line (l1 ++ l2) = (lineCount line l1 + lineCount line l2)%nat.
Proof. unfold lineCount. by rewrite filter_app, length_app. Qed.

Lemma lineCount_absent line lines :
  Forall (fun l => l ≠ line) lines -> lineCount line lines = 0%nat.
Proof.
  unfold lineCount. induction 1 as [|l lines Hl _ IH]; [done|].
  rewrite filter_cons. by rewrite decide_False.
Qed.

Lemma string_length_app (a b : string) :
  String.length (a +:+ b) = (String.length a + String.length b)%nat.
Proof. induction a as [|c a IH]; [done|]. simpl. by rewrite IH. Qed.

Lemma long_line_differs (a b line : string) :
  (String.length line < String.length b)%nat -> a +:+ b ≠ line.
Proof.
  intros Hlen Heq. apply (f_equal String.length) in Heq.
  rewrite string_length_app in Heq. lia.
Qed.

Lemma Forall_concat_imap {A B} (P : B -> Prop) (f : nat -> A -> list B) (l : list A) :
  (forall i x, Forall P (f i x)) -> Forall P (concat (imap f l)).
Proof.
  revert f. induction l as [|x l IH]; intros f Hf; simpl; [constructor|].
  apply Forall_app. split; [apply Hf|]. apply IH. intros i y. apply Hf.
Qed.












(** *** Lines of the joined text *)

Lemma string_app_assoc (a b c : string) : (a +:+ b) +:+ c = a +:+ (b +:+ c).
Proof.
  induction a as [|x a IH]; [done|].
  change (String x ((a +:+ b) +:+ c) = String x (a +:+ (b +:+ c))). by rewrite IH.
Qed.

Lemma split_cons_nonempty sep s : exists h t, split sep s = h :: t.
Proof.
  destruct s as [|c s]; simpl; [by eexists _, _|].
  destruct (Ascii.eqb c sep); [by eexists _, _|].
  destruct (split sep s); by eexists _, _.
Qed.

(** Splitting at a line break that joins two texts. *)
Lemma split_app_nl a b :
  split nlc (a +:+ String nlc b) = split nlc a ++ split nlc b.
Proof.
  induction a as [|c a IH]; [done|].
  change (String c a +:+ String nlc b) with (String c (a +:+ String nlc b)).
  cbn [split]. rewrite IH. destruct (Ascii.eqb c nlc); [done|].
  by destruct (split_cons_nonempty nlc a) as (h & t & ->).
Qed.

Lemma concat_nl_cons x y l :
  String.concat nl (x :: y :: l) = x +:+ String nlc (String.concat nl (y :: l)).
Proof. reflexivity. Qed.

(** The lines of the joined text are the lines of the elements. *)
Lemma split_concat_nl lines :
  lines ≠ [] -> split nlc (String.concat nl lines) = concat (split nlc <$> lines).
Proof.
  induction lines as [|x lines IH]; [done|]. intros _.
  destruct lines as [|y lines].
  - simpl. by rewrite app_nil_r.
  - rewrite concat_nl_cons, split_app_nl, IH by done. by rewrite fmap_cons.
Qed.

Lemma split_noNewline s : noNewline s = true -> split nlc s = [s].
Proof.
  induction s as [|c s IH]; [done|]. cbn [noNewline split]. intros H.
  apply andb_true_iff in H as [Hc Hs]. apply negb_true_iff in Hc.
  by rewrite Hc, (IH Hs).
Qed.

(** An element without line break is a line of the joined text. *)
Lemma single_line_in_script line lines :
  noNewline line = true -> line ∈ lines -> line ∈ split nlc (String.concat nl lines).
Proof.
  intros Hline Hin. rewrite split_concat_nl by (intros ->; by apply not_elem_of_nil in Hin).
  apply list_elem_of_In, in_concat. exists [line]. split; [|by left].
  apply list_elem_of_In, list_elem_of_fmap. exists line. by rewrite split_noNewline.
Qed.

Lemma concat_nl_snoc init x :
  init ≠ [] -> String.concat nl (init ++ [x]) = String.concat nl init +:+ nl +:+ x.
Proof.
  induction init as [|a init IH]; [done|]. intros _.
  destruct init as [|b init]; [done|].
  change ((a :: b :: init) ++ [x]) with (a :: (b :: init) ++ [x]).
  change (String.concat nl (a :: (b :: init) ++ [x]))
    with (a +:+ nl +:+ String.concat nl ((b :: init) ++ [x])).
  rewrite IH by done.
  change (String.concat nl (a :: b :: init)) with (a +:+ nl +:+ String.concat nl (b :: init)).
  by rewrite !string_app_assoc.
Qed.

(** *** Conversion to text *)

Lemma collect_Returned {A} (xs : list (outcome A)) l :
  collect xs = Returned l <-> xs = Returned <$> l.
Proof.
  revert l. induction xs as [|[a|e] xs IH]; intros l; cbn [collect].
  - split; [by intros [= <-] | by destruct l].
  - destruct (collect xs) as [l'|] eqn:E.
    + split.
      * intros [= <-]. rewrite fmap_cons. f_equal. by apply IH.
      * destruct l as [|b l]; [done|]. rewrite fmap_cons. intros [= -> Hxs].
        apply IH in Hxs. by injection Hxs as ->.
    + split; [done|]. destruct l as [|b l]; [done|]. rewrite fmap_cons.
      intros [= -> Hxs]. by apply IH in Hxs.
  - split; [done | by destruct l].
Qed.

(** [toString] returns exactly on the printable values. *)
Lemma toString_printable :
  forall v, match toString v with
            | Returned _ => printable v = true
            | Thrown e => printable v = false ∧ e = TypeError
            end.
Proof.
  fix IH 1. intros [| [] | x | s | items | fields]; cbn [toString printable]; try done.
  - assert (Hitems : match collect (List.map (fun x => match x with
                                                       | JNull => Returned EmptyString
                                                       | _ => toString x
                                                       end) items) with
                     | Returned _ => forallb printable items = true
                     | Thrown e => forallb printable items = false ∧ e = TypeError
                     end).
    { induction items as [|x items IHl]; [done|]. cbn [List.map collect forallb].
      assert (Hx : match (match x with
                          | JNull => Returned EmptyString
                          | _ => toString x
                          end) with
                   | Returned _ => printable x = true
                   | Thrown e => printable x = false ∧ e = TypeError
                   end).
      { pose proof (IH x) as Hx. by destruct x. }
      destruct (match x with JNull => Returned EmptyString | _ => toString x end).
      - rewrite Hx. cbn [andb]. by destruct (collect _).
      - by destruct Hx as [-> ->]. }
    by destruct (collect _).
  - by destruct (hasOwn "toString" fields).
Qed.

Lemma toString_Returned v :
  printable v = true -> exists text, toString v = Returned text.
Proof.
  intros Hp. pose proof (toString_printable v) as H.
  destruct (toString v) as [text|]; [by exists text|]. destruct H. congruence.
Qed.

Lemma toString_Thrown v : printable v = false -> toString v = Thrown TypeError.
Proof.
  intros Hp. pose proof (toString_printable v) as H.
  destruct (toString v); [congruence|]. by destruct H as [_ ->].
Qed.

(** The value converted for [key] is [paramValue]. *)
Lemma interpolated_value n key dflt defaults :
  getProp defaults key = Some dflt ->
  dflt ≠ JNull ->
  nullish (getProp (valueOr (params (data n)) defaults) key) dflt = paramValue n key dflt.
Proof.
  intros Hd Hnn. unfold paramValue, ownParam, valueOr.
  assert (Hdef : nullish (getProp defaults key) dflt = dflt).
  { rewrite Hd. by destruct dflt. }
  destruct (params (data n)) as [[|[]|[|[]|[]|[]]|[|]|items|fields]|]; try done.
  cbn [truthy]. destruct (getProp (JObj fields) key) as [[]|]; reflexivity.
Qed.

Lemma lrText_value opt : lrText opt = toString (paramValue opt "lr" lrDefault).
Proof. unfold lrText. by rewrite (interpolated_value opt "lr" lrDefault). Qed.

Lemma trainerBlock_value t :
  trainerBlock t
  = match toString (paramValue t "batch_size" batchSizeDefault) with
    | Thrown e => Thrown e
    | Returned batch =>
        match toString (paramValue t "epochs" epochsDefault) with
        | Thrown e => Thrown e
        | Returned epochs => Returned (trainerBlockWith batch epochs)
        end
    end.
Proof.
  unfold trainerBlock. cbv zeta.
  rewrite (interpolated_value t "batch_size" batchSizeDefault) by done.
  by rewrite (interpolated_value t "epochs" epochsDefault) by done.
Qed.


(** When the interpolated values convert, the lines are assembled. *)
Lemma scriptLines_Returned ordered pn :
  optimizerPrintable ordered = true ->
  trainerPrintable ordered = true ->
  exists optimizer trainer,
    optimizerLines ordered = Returned optimizer
    ∧ trainerLines ordered = Returned trainer
    ∧ scriptLines ordered pn = Returned (assemble ordered pn optimizer trainer).
Proof.
  unfold optimizerPrintable, trainerPrintable, scriptLines, optimizerLines, trainerLines,
    optimizerBlock.
  intros Ho Ht.
  assert (Hopt : exists optimizer,
            match List.find (hasType NODE_TYPES.Optimizer) ordered with
            | Some opt => match lrText opt with
                          | Thrown e => Thrown e
                          | Returned text => Returned (optimizerBlockWith text)
                          end
            | None => Returned []
            end = Returned optimizer).
  { destruct (List.find (hasType NODE_TYPES.Optimizer) ordered) as [opt|]; [|by eexists].
    rewrite lrText_value. destruct (toString_Returned _ Ho) as [text ->]. by eexists. }
  assert (Htr : exists trainer,
            match List.find (hasType NODE_TYPES.Trainer) ordered with
            | Some t => trainerBlock t
            | None => Returned []
            end = Returned trainer).
  { destruct (List.find (hasType NODE_TYPES.Trainer) ordered) as [t|]; [|by eexists].
    rewrite trainerBlock_value. apply andb_true_iff in Ht as [Hb He].
    destruct (toString_Returned _ Hb) as [batch ->].
    destruct (toString_Returned _ He) as [epochs ->]. by eexists. }
  destruct Hopt as [optimizer Hopt], Htr as [trainer Htr].
  exists optimizer, trainer. by rewrite Hopt, Htr.
Qed.

(** When one of them does not, the emitter throws. *)
Lemma scriptLines_Thrown ordered pn :
  optimizerPrintable ordered && trainerPrintable ordered = false ->
  scriptLines ordered pn = Thrown TypeError.
Proof.
  unfold optimizerPrintable, trainerPrintable, scriptLines, optimizerLines, trainerLines,
    optimizerBlock.
  intros H. apply andb_false_iff in H.
  destruct (List.find (hasType NODE_TYPES.Optimizer) ordered) as [opt|].
  - rewrite lrText_value. pose proof (toString_printable (paramValue opt "lr" lrDefault)) as Hp.
    destruct (toString (paramValue opt "lr" lrDefault)) as [text|e]; [|by destruct Hp as [_ ->]].
    destruct H as [H|H]; [congruence|].
    destruct (List.find (hasType NODE_TYPES.Trainer) ordered) as [t|]; [|done].
    rewrite trainerBlock_value. apply andb_false_iff in H as [H|H].
    + by rewrite (toString_Thrown _ H).
    + pose proof (toString_printable (paramValue t "batch_size" batchSizeDefault)) as Hb.
      destruct (toString (paramValue t "batch_size" batchSizeDefault));
        [by rewrite (toString_Thrown _ H) | by destruct Hb as [_ ->]].
  - destruct H as [H|H]; [done|].
    destruct (List.find (hasType NODE_TYPES.Trainer) ordered) as [t|]; [|done].
    rewrite trainerBlock_value. apply andb_false_iff in H as [H|H].
    + by rewrite (toString_Thrown _ H).
    + pose proof (toString_printable (paramValue t "batch_size" batchSizeDefault)) as Hb.
      destruct (toString (paramValue t "batch_size" batchSizeDefault));
        [by rewrite (toString_Thrown _ H) | by destruct Hb as [_ ->]].
Qed.

(** Nodes whose interpolated values all convert. *)
Lemma interpolable_printable (nodes ordered : list Node) :
  Forall (fun n => interpolable n = true) nodes ->
  (forall n, n ∈ ordered -> n ∈ nodes) ->
  optimizerPrintable ordered = true ∧ trainerPrintable ordered = true.
Proof.
  intros Hall Hsub. unfold optimizerPrintable, trainerPrintable.
  rewrite Forall_forall in Hall. split.
  - destruct (List.find _ ordered) as [opt|] eqn:E; [|done].
    apply find_elem_of in E as [Hin _]. specialize (Hall opt (Hsub opt Hin)).
    unfold interpolable in Hall. by apply andb_true_iff in Hall as [[? _]%andb_true_iff _].
  - destruct (List.find _ ordered) as [t|] eqn:E; [|done].
    apply find_elem_of in E as [Hin _]. specialize (Hall t (Hsub t Hin)).
    unfold interpolable in Hall.
    apply andb_true_iff in Hall as [[_ Hb]%andb_true_iff He]. by rewrite Hb, He.
Qed.

Lemma emitScript_Returned ordered pn lines :
  scriptLines ordered pn = Returned lines ->
  emitScript ordered pn = Returned (String.concat nl lines).
Proof. intros H. unfold emitScript. by rewrite H. Qed.

(** A validated graph whose interpolated values convert: the emitter
    returns the joined lines, built over the nodes in dependency
    order. *)
Lemma valid_graph_lines nodes edges pn :
  NoDup (id <$> nodes) ->
  no_dangling nodes edges ->
  ok (validateGraph nodes edges) = true ->
  Forall (fun n => interpolable n = true) nodes ->
  exists ordered optimizer trainer,
    scriptLines ordered pn = Returned (assemble ordered pn optimizer trainer)
    ∧ generatePyTorchCode nodes edges pn
      = Returned (String.concat nl (assemble ordered pn optimizer trainer))
    ∧ optimizerLines ordered = Returned optimizer
    ∧ trainerLines ordered = Returned trainer
    ∧ id <$> ordered = topologicalSort nodes edges
    ∧ ordered ≡ₚ nodes.
Proof.
  intros Hnd Hdang Hok Hall.
  destruct (valid_graph_ordered nodes edges pn Hnd Hdang Hok) as (ordered & Hgen & Hid & Hperm).
  destruct (interpolable_printable nodes ordered Hall) as [Ho Ht].
  { intros n Hn. by rewrite <- Hperm. }
  destruct (scriptLines_Returned ordered pn Ho Ht) as (optimizer & trainer & Hopt & Htr & Hl).
  exists ordered, optimizer, trainer. repeat (split; [done|]).
  split; [|done]. rewrite Hgen. by apply emitScript_Returned.
Qed.

End EmitterFacts.

Section emitter_properties.
Import EmitterFacts.

Lemma pipeline_no_dangling o :
  id o = "o" -> no_dangling (pipeline o) pipelineEdges.
Proof.
  intros Ho e He. unfold pipeline. cbn [fmap list_fmap id newNode]. rewrite Ho.
  repeat (apply elem_of_cons in He as [->|He]; [split; compute_done|]).
  by apply not_elem_of_nil in He.
Qed.


(** Validation compares lengths only: with one dangling target and one
    dangling source the lengths agree, validation passes, and the
    Optimizer node, never dequeued, gets no block.  The statements below
    therefore take graphs without dangling edges. *)
Remark validateGraph_accepts_dangling :
  let nodes := pipeline (newNode "o" "Optimizer") in
  let edges := [mkEdge "x" "o"; mkEdge "m" "y"] in
  let ordered := [newNode "m" "Model"; newNode "l" "Loss"] in
  ok (validateGraph nodes edges) = true
  ∧ topologicalSort nodes edges = ["m"; "l"; "y"]
  ∧ scriptLines ordered "project" = Returned (assemble ordered "project" [] [])
  ∧ generatePyTorchCode nodes edges "project"
    = Returned (String.concat nl (assemble ordered "project" [] []))
  ∧ optimizerLines ordered = Returned [].
Proof. cbv zeta. repeat split; vm_compute; reflexivity. Qed.







(** C10, at the input on which the code departs from it: a dangling
    edge whose target is spelled like a member of [Object.prototype]
    puts that id in the orderer's sequence; [byId] yields the inherited
    member, [filter(Boolean)] keeps it, and reading its [data.type]
    throws.  No script is produced. *)
Theorem generatePyTorchCode_inherited_id_throws (pn : string) :
  topologicalSort [newNode "a" "Data"] [mkEdge "a" "constructor"] = ["a"; "constructor"]
  ∧ orderedNodes [newNode "a" "Data"] ["a"; "constructor"]
    = [Own (newNode "a" "Data"); Inherited "constructor"]
  ∧ generatePyTorchCode [newNode "a" "Data"] [mkEdge "a" "constructor"] pn
    = Thrown TypeError.
Proof. split; [|split]; vm_compute; reflexivity. Qed.

(** On cyclic and on dangling input the emitter still returns, leaving
    out the nodes the orderer did not reach and the ids that name no
    node. *)
Example generatePyTorchCode_partial_graph :
  scriptLines [newNode "a" "Data"] "p" = Returned (assemble [newNode "a" "Data"] "p" [] [])
  ∧ generatePyTorchCode
      [newNode "a" "Data"; newNode "b" "Model"; newNode "c" "Loss"; newNode "d" "Loss"]
      [mkEdge "b" "c"; mkEdge "c" "b"; mkEdge "x" "d"; mkEdge "a" "y"] "p"
    = Returned (String.concat nl (assemble [newNode "a" "Data"] "p" [] [])).
Proof. split; vm_compute; reflexivity. Qed.

(** An [lr] that is an object with an own [toString] property, which
    the property editor accepts and validation never reads, makes the
    template literal of the optimizer line throw: no script is
    returned. *)
Example generatePyTorchCode_unprintable_lr :
  let opt := withParams (newNode "o" "Optimizer")
               (JObj [("lr", JObj [("toString", num 1 1)])]) in
  ok (validateGraph (pipeline opt) pipelineEdges) = true
  ∧ interpolable opt = false
  ∧ generatePyTorchCode (pipeline opt) pipelineEdges "project" = Thrown TypeError.
Proof. cbv zeta. repeat split; vm_compute; reflexivity. Qed.

End emitter_properties.

(** ** Properties of the build and download handlers *)

Section handler_properties.
Import EmitterFacts.

(** A build on a graph that fails validation stores the error report and
    never reaches the emitter. *)
Lemma buildCode_invalid (b : Board) :
  ok (validateGraph (nodes b) (edges b)) = false ->
  buildCode b
  = Returned (setCode b (errorReport (errors (validateGraph (nodes b) (edges b))))).
Proof. intros H. unfold buildCode. by rewrite H. Qed.

(** A build stores emitted text only for a graph that passes
    validation. *)
Lemma buildCode_valid (b : Board) :
  ok (validateGraph (nodes b) (edges b)) = true ->
  buildCode b
  = match generatePyTorchCode (nodes b) (edges b) (projectName b) with
    | Thrown e => Thrown e
    | Returned script => Returned (setCode b script)
    end.
Proof. intros H. unfold buildCode. by rewrite H. Qed.

(** Every line of the report of a failed validation is a comment, and
    the report has one line per error after its heading. *)
Lemma errorReport_comment_only (nodes : list Node) (edges : list Edge) :
  ok (validateGraph nodes edges) = false ->
  let errs := errors (validateGraph nodes edges) in
  split nlc (errorReport errs) = "# Ошибки графа:" :: ((fun e => "# - " +:+ e) <$> errs)
  ∧ Forall (fun line => isComment line = true) (split nlc (errorReport errs)).
Proof.
  unfold validateGraph, pushIf.
  destruct (Nat.eqb_spec (typeCount nodes NODE_TYPES.Model) 0) as [Hm|Hm];
  destruct (Nat.eqb_spec (typeCount nodes NODE_TYPES.Loss) 0) as [Hl|Hl];
  destruct (Nat.eqb_spec (typeCount nodes NODE_TYPES.Optimizer) 0) as [Ho|Ho];
  cbn [app length Nat.eqb negb errors ok].
  1-7: intros _; split; [vm_compute; reflexivity|];
       repeat (constructor; [vm_compute; reflexivity|]); constructor.
  destruct (Nat.eqb_spec (length (topologicalSort nodes edges)) (length nodes)) as [Hc|Hc];
  cbn [app length Nat.eqb negb errors ok]; [discriminate|].
  intros _; split; [vm_compute; reflexivity|].
  repeat (constructor; [vm_compute; reflexivity|]); constructor.
Qed.

(** With no text built yet, the download handler hands the emitter's
    output to [download] without consulting the validator; the report
    that its call to [buildCode] stores is not what is downloaded. *)
Lemma downloadCode_unbuilt (b b' : Board) (script : string) :
  code b = EmptyString ->
  buildCode b = Returned b' ->
  generatePyTorchCode (nodes b) (edges b) (projectName b) = Returned script ->
  downloadCode b
  = Returned (b', mkDownload (strOr (projectName b) "project" +:+ ".py") script).
Proof. intros Hc Hb Hg. unfold downloadCode. by rewrite Hc, Hb, Hg. Qed.

(** C2, at the input on which the code departs from it: on the empty
    board validation fails with three errors and [buildCode] stores the
    comment-only report, yet [downloadCode] downloads the text of
    [generatePyTorchCode], a script. *)
Theorem downloadCode_skips_validation :
  let b := mkBoard [] [] EmptyString "project" in
  ok (validateGraph (nodes b) (edges b)) = false
  ∧ errors (validateGraph (nodes b) (edges b)) = [errNoModel; errNoLoss; errNoOptimizer]
  ∧ buildCode b
    = Returned (setCode b (errorReport [errNoModel; errNoLoss; errNoOptimizer]))
  ∧ scriptLines [] "project" = Returned (assemble [] "project" [] [])
  ∧ downloadCode b
    = Returned (setCode b (errorReport [errNoModel; errNoLoss; errNoOptimizer]),
                mkDownload "project.py" (String.concat nl (assemble [] "project" [] [])))
  ∧ generatePyTorchCode [] [] "project"
    = Returned (String.concat nl (assemble [] "project" [] []))
  ∧ "import torch" ∈ split nlc (String.concat nl (assemble [] "project" [] [])).
Proof.
  cbv zeta. repeat (split; [vm_compute; reflexivity|]). compute_done.
Qed.

End handler_properties.

(** ** Scenarios of the specification *)

Section scenarios.

(** Cycle detection: three stages in a ring are never dequeued, the
    validator reports the cycle and the build stores the report. *)
Example scenario_cycle :
  let nodes := [newNode "A" "Model"; newNode "B" "Loss"; newNode "C" "Optimizer"] in
  let edges := [mkEdge "A" "B"; mkEdge "B" "C"; mkEdge "C" "A"] in
  topologicalSort nodes edges = []
  ∧ validateGraph nodes edges = mkValidation false [errCycle]
  ∧ buildCode (mkBoard nodes edges EmptyString "project")
    = Returned (mkBoard nodes edges (errorReport [errCycle]) "project").
Proof. cbv zeta. repeat split; vm_compute; reflexivity. Qed.

(** Required-stage detection: a Data and a Transform node alone give the
    three missing-stage messages and no cycle message. *)
Example scenario_missing_stages :
  validateGraph [newNode "d" "Data"; newNode "t" "Transform"] [mkEdge "d" "t"]
  = mkValidation false [errNoModel; errNoLoss; errNoOptimizer].
Proof. vm_compute. reflexivity. Qed.

(** Defaulting: empty [params] on the Optimizer and the Trainer. *)
Example scenario_defaults :
  optimizerBlock (newNode "o" "Optimizer")
  = Returned [ "# Optimizer"; "optimizer = optim.Adam(model.parameters(), lr=0.001)"; nl ]
  ∧ exists block,
      trainerBlock (newNode "t" "Trainer") = Returned block
      ∧ nth 5 block EmptyString = "for epoch in range(3):"
      ∧ nth 2 block EmptyString = "val_loader = DataLoader(val_ds, batch_size=64)  # TODO".
Proof. split; [vm_compute; reflexivity|]. eexists. repeat split; vm_compute; reflexivity. Qed.

(** Metric gating: the evaluation block is present exactly when a Metric
    node was ordered. *)
Example scenario_metric_gating :
  metricLines (pipeline (newNode "o" "Optimizer")) = []
  ∧ length (metricLines (pipeline (newNode "o" "Optimizer") ++ [newNode "k" "Metric"]))
    = 11%nat.
Proof. split; vm_compute; reflexivity. Qed.

(** End to end: the six-stage chain of the specification. *)
Example scenario_end_to_end :
  let nodes :=
    [ mkNode "1" (mkData "Train" "Data" (Some emptyObject) EmptyString);
      withParams (newNode "2" "Split")
        (JObj [("train", num 7 0); ("val", num 15 0); ("test", num 15 0)]);
      mkNode "3" (mkData "Net" "Model" (Some emptyObject) EmptyString);
      newNode "4" "Loss";
      withParams (newNode "5" "Optimizer") (JObj [("lr", num 1 (-1))]);
      withParams (newNode "6" "Trainer")
        (JObj [("epochs", num 5 1); ("batch_size", num 32 2)]) ] in
  let edges := [mkEdge "1" "2"; mkEdge "2" "3"; mkEdge "3" "4"; mkEdge "4" "5";
                mkEdge "5" "6"] in
  ok (validateGraph nodes edges) = true
  ∧ exists script,
      generatePyTorchCode nodes edges "project" = Returned script
      ∧ "optimizer = optim.Adam(model.parameters(), lr=0.01)" ∈ split nlc script
      ∧ "for epoch in range(5):" ∈ split nlc script
      ∧ "train_loader = DataLoader(train_ds, batch_size=32, shuffle=True)  # TODO"
        ∈ split nlc script
      ∧ "#   " +:+ dq +:+ "train" +:+ dq +:+ ": 0.7," ∈ split nlc script.
Proof.
  cbv zeta. split; [vm_compute; reflexivity|].
  eexists. split; [vm_compute; reflexivity|]. repeat split; compute_done.
Qed.

End scenarios.

(** ** Further properties of the orderer *)

Section orderer_order.
Import Topo TopoSpec TopoTermination TopoTables TopoInvariant.

(** The ids returned start with the initial ready queue. *)
Lemma sort_prefix ids edges :
  exists rest, sort ids edges = initQueue (buildMaps ids edges).2 ids ++ rest.
Proof.
  destruct (sort_final ids edges
              (fun st => exists rest,
                 result st ++ queue st
                 = initQueue (buildMaps ids edges).2 ids ++ rest))
    as (st & [rest H] & Hq & Hres).
  - exists []. unfold initState. cbn [result queue]. by rewrite app_nil_r.
  - intros st v q' [rest H] Hq.
    destruct (iteration_shape (buildMaps ids edges).1 v q' st) as (p & Hq' & Hr & _).
    exists (rest ++ p). rewrite Hq', Hr, Hq in *.
    rewrite (app_assoc _ rest p), <- H. by rewrite <- !app_assoc.
  - exists rest. by rewrite <- Hres, <- H, Hq, app_nil_r.
Qed.

Lemma initQueue_untargeted ids edges :
  initQueue (buildMaps ids edges).2 ids
  = filter (fun i => i ∉ (target <$> edges)) ids.
Proof.
  unfold initQueue. apply list_filter_iff. intros i. rewrite get0_buildMaps. split.
  - intros Hz Hin. apply list_elem_of_fmap in Hin as (e & -> & He).
    assert (Hp : pending edges [] (target e) = 0%nat) by lia.
    pose proof (pending_zero edges [] (target e) e Hp He eq_refl) as Hs.
    by apply not_elem_of_nil in Hs.
  - intros Hn. destruct (decide (pending edges [] i = 0%nat)) as [->|Hp]; [done|].
    apply pending_pos in Hp as (e & He & <- & _).
    destruct Hn. apply list_elem_of_fmap. by exists e.
Qed.

Lemma filter_all {A} (P : A -> Prop) `{forall x, Decision (P x)} (l : list A) :
  (forall x, x ∈ l -> P x) -> filter P l = l.
Proof.
  induction l as [|x l IH]; intros Hall; [done|].
  rewrite filter_cons, decide_True by (apply Hall; left).
  f_equal. apply IH. intros y Hy. apply Hall. by right.
Qed.

(** Every id returned has each of its edge sources returned before it. *)
Lemma sort_source_before ids edges e j :
  NoDup ids -> e ∈ edges ->
  sort ids edges !! j = Some (target e) ->
  exists i, (i < j)%nat ∧ sort ids edges !! i = Some (source e).
Proof.
  intros Hnd He Hj.
  destruct (sort_Outer ids edges Hnd) as (st & [_ Hord] & _ & Hres).
  rewrite Hres in Hord.
  pose proof (take_drop_middle _ _ _ Hj) as Hsplit. symmetry in Hsplit.
  apply (Hord e _ _ He) in Hsplit.
  apply list_elem_of_lookup in Hsplit as [i Hi].
  pose proof (lookup_lt_Some _ _ _ Hi) as Hlt. rewrite length_take in Hlt.
  exists i. split; [lia|]. by rewrite lookup_take_lt in Hi by lia.
Qed.

(** The same along a path of one or more edges. *)
Lemma sort_ancestor_before ids edges x y :
  NoDup ids -> tc (has_edge edges) x y ->
  forall j, sort ids edges !! j = Some y ->
  exists i, (i < j)%nat ∧ sort ids edges !! i = Some x.
Proof.
  intros Hnd Hxy.
  induction Hxy as [x y (e & He & <- & <-)|x y z (e & He & <- & <-) _ IH]; intros j Hj.
  - by apply sort_source_before.
  - destruct (IH j Hj) as (k & Hk & Hky).
    destruct (sort_source_before ids edges e k Hnd He Hky) as (i & Hi & Hix).
    exists i. split; [lia | done].
Qed.

Lemma sort_not_on_cycle ids edges c x :
  NoDup ids -> tc (has_edge edges) c c -> rtc (has_edge edges) c x ->
  x ∉ sort ids edges.
Proof.
  intros Hnd Hcyc Hreach Hin.
  assert (Hc : c ∈ sort ids edges).
  { apply rtc_tc in Hreach as [->|Hcx]; [done|].
    apply list_elem_of_lookup in Hin as [j Hj].
    destruct (sort_ancestor_before ids edges c x Hnd Hcx j Hj) as (i & _ & Hi).
    apply list_elem_of_lookup. by exists i. }
  apply list_elem_of_lookup in Hc as [j Hj].
  destruct (sort_ancestor_before ids edges c c Hnd Hcyc j Hj) as (i & Hlt & Hi).
  pose proof (NoDup_lookup _ i j c (sort_NoDup ids edges Hnd) Hi Hj). lia.
Qed.

(** X1.  Without edges the orderer returns the node ids in the order of
    the node list, repeated ids included; in particular the empty graph
    gives the empty sequence. *)
Theorem topologicalSort_no_edges (nodes : list Node) :
  topologicalSort nodes [] = id <$> nodes.
Proof.
  unfold topologicalSort.
  destruct (sort_prefix (id <$> nodes) []) as [rest Hrest].
  rewrite initQueue_untargeted in Hrest.
  rewrite filter_all in Hrest by (intros x _; apply not_elem_of_nil).
  pose proof (sort_length_bound (id <$> nodes) []) as Hlen.
  rewrite Hrest, length_app in Hlen. simpl in Hlen.
  destruct rest; [by rewrite Hrest, app_nil_r | simpl in Hlen; lia].
Qed.


(** X3.  With pairwise distinct node ids, an id is returned only after
    the source of every edge that points at it has been returned: the
    target of an edge whose source is never returned (an id that is
    neither a node id nor an edge target, a member of a cycle) is never
    returned either. *)
Theorem topologicalSort_sources_emitted (nodes : list Node) (edges : list Edge)
  (e : Edge) (j : nat) :
  NoDup (id <$> nodes) ->
  e ∈ edges ->
  topologicalSort nodes edges !! j = Some (target e) ->
  exists i, (i < j)%nat ∧ topologicalSort nodes edges !! i = Some (source e).
Proof. apply sort_source_before. Qed.

Lemma topologicalSort_sources_emitted_witness :
  let nodes := [newNode "a" "Data"; newNode "b" "Model"] in
  let edges := [mkEdge "a" "b"] in
  exists i, (i < 1)%nat ∧ topologicalSort nodes edges !! i = Some "a".
Proof.
  cbv zeta.
  apply (topologicalSort_sources_emitted [newNode "a" "Data"; newNode "b" "Model"]
           [mkEdge "a" "b"] (mkEdge "a" "b") 1).
  - compute_done.
  - compute_done.
  - vm_compute. reflexivity.
Defined.

(** X4.  With pairwise distinct node ids, no id that lies on a cycle, and
    no id reachable from a cycle, is ever returned. *)
Theorem topologicalSort_skips_cycles (nodes : list Node) (edges : list Edge)
  (c x : string) :
  NoDup (id <$> nodes) ->
  tc (has_edge edges) c c ->
  rtc (has_edge edges) c x ->
  x ∉ topologicalSort nodes edges.
Proof. apply sort_not_on_cycle. Qed.

Lemma topologicalSort_skips_cycles_witness :
  "c" ∉ topologicalSort [newNode "a" "Data"; newNode "b" "Model"; newNode "c" "Loss"]
          [mkEdge "a" "b"; mkEdge "b" "a"; mkEdge "b" "c"].
Proof.
  apply (topologicalSort_skips_cycles _ _ "a" "c").
  - compute_done.
  - apply (tc_l _ "a" "b" "a").
    + exists (mkEdge "a" "b"). split; [compute_done | done].
    + apply tc_once. exists (mkEdge "b" "a"). split; [compute_done | done].
  - apply (rtc_l _ "a" "b" "c").
    + exists (mkEdge "a" "b"). split; [compute_done | done].
    + apply rtc_once. exists (mkEdge "b" "c"). split; [compute_done | done].
Defined.

(** X5.  With pairwise distinct node ids no id is returned twice. *)
Theorem topologicalSort_emits_once (nodes : list Node) (edges : list Edge) :
  NoDup (id <$> nodes) -> NoDup (topologicalSort nodes edges).
Proof. apply sort_NoDup. Qed.

Lemma topologicalSort_emits_once_witness :
  NoDup (topologicalSort [newNode "a" "Data"; newNode "b" "Model"]
           [mkEdge "a" "b"; mkEdge "a" "b"]).
Proof.
  apply (topologicalSort_emits_once [newNode "a" "Data"; newNode "b" "Model"]
           [mkEdge "a" "b"; mkEdge "a" "b"]).
  compute_done.
Defined.

End orderer_order.

(** ** The validator's cycle check on well-formed graphs *)

Section validator_exact.
Import Topo TopoSpec TopoInvariant EmitterFacts.

Lemma tc_has_edge_target edges x y :
  tc (has_edge edges) x y -> y ∈ (target <$> edges).
Proof.
  induction 1 as [x y (e & He & _ & <-)|]; [|done].
  apply list_elem_of_fmap. by exists e.
Qed.

Lemma sort_full_length_acyclic nodes edges :
  NoDup (id <$> nodes) -> no_dangling nodes edges ->
  length (topologicalSort nodes edges) = length nodes -> acyclic edges.
Proof.
  intros Hnd Hdang Hlen c Hcyc.
  assert (Hperm : topologicalSort nodes edges ≡ₚ id <$> nodes).
  { apply submseteq_length_Permutation.
    - apply NoDup_submseteq; [by apply sort_NoDup|].
      intros x Hx. apply sort_known in Hx as [?|Hx]; [done|].
      apply list_elem_of_fmap in Hx as (e & -> & He). by apply Hdang.
    - rewrite length_fmap. lia. }
  assert (Hc : c ∈ id <$> nodes).
  { apply tc_has_edge_target in Hcyc.
    apply list_elem_of_fmap in Hcyc as (e & -> & He). by apply Hdang. }
  rewrite <- Hperm in Hc. revert Hc.
  apply (sort_not_on_cycle (id <$> nodes) edges c c Hnd Hcyc). done.
Qed.

Lemma sort_acyclic_full_length nodes edges :
  NoDup (id <$> nodes) -> no_dangling nodes edges -> acyclic edges ->
  length (topologicalSort nodes edges) = length nodes.
Proof.
  intros Hnd Hdang Hacyc.
  rewrite <- (length_fmap id nodes). apply Nat.le_antisymm.
  - apply submseteq_length, NoDup_submseteq; [by apply sort_NoDup|].
    intros x Hx. apply sort_known in Hx as [?|Hx]; [done|].
    apply list_elem_of_fmap in Hx as (e & -> & He). by apply Hdang.
  - apply submseteq_length, NoDup_submseteq; [done|].
    apply topologicalSort_complete; [done | | done].
    intros e He. by apply Hdang.
Qed.

Lemma validateGraph_ok_intro nodes edges :
  typeCount nodes NODE_TYPES.Model ≠ 0%nat ->
  typeCount nodes NODE_TYPES.Loss ≠ 0%nat ->
  typeCount nodes NODE_TYPES.Optimizer ≠ 0%nat ->
  length (topologicalSort nodes edges) = length nodes ->
  validateGraph nodes edges = mkValidation true [].
Proof.
  intros Hm Hl Ho Hlen. unfold validateGraph, pushIf.
  apply Nat.eqb_neq in Hm, Hl, Ho. rewrite Hm, Hl, Ho.
  cbn [app length Nat.eqb negb]. rewrite Hlen, Nat.eqb_refl. done.
Qed.

(** X6.  On a graph with pairwise distinct ids and no dangling edge the
    length comparison of the validator is an exact cycle test:
    validation passes precisely when a Model, a Loss and an Optimizer
    node are present and the edges induce no cycle. *)
Theorem validateGraph_ok_iff_acyclic (nodes : list Node) (edges : list Edge) :
  NoDup (id <$> nodes) ->
  no_dangling nodes edges ->
  (ok (validateGraph nodes edges) = true)
  ↔ (typeCount nodes NODE_TYPES.Model ≠ 0%nat
     ∧ typeCount nodes NODE_TYPES.Loss ≠ 0%nat
     ∧ typeCount nodes NODE_TYPES.Optimizer ≠ 0%nat
     ∧ acyclic edges).
Proof.
  intros Hnd Hdang. split.
  - intros Hok. apply validateGraph_ok in Hok as (Hm & Hl & Ho & Hlen).
    repeat (split; [done|]). by apply (sort_full_length_acyclic nodes).
  - intros (Hm & Hl & Ho & Hacyc).
    rewrite (validateGraph_ok_intro nodes edges Hm Hl Ho); [done|].
    by apply sort_acyclic_full_length.
Qed.

Lemma validateGraph_ok_iff_acyclic_witness :
  (ok (validateGraph (pipeline (newNode "o" "Optimizer")) pipelineEdges) = true)
  ↔ (typeCount (pipeline (newNode "o" "Optimizer")) NODE_TYPES.Model ≠ 0%nat
     ∧ typeCount (pipeline (newNode "o" "Optimizer")) NODE_TYPES.Loss ≠ 0%nat
     ∧ typeCount (pipeline (newNode "o" "Optimizer")) NODE_TYPES.Optimizer ≠ 0%nat
     ∧ acyclic pipelineEdges).
Proof.
  apply (validateGraph_ok_iff_acyclic (pipeline (newNode "o" "Optimizer")) pipelineEdges).
  - compute_done.
  - by apply pipeline_no_dangling.
Defined.

End validator_exact.

(** ** Properties of the editor operations *)

Section editor_properties.
Import Topo TopoSpec TopoInvariant EmitterFacts.

Lemma rev_fmap {A B} (f : A -> B) (l : list A) : rev (f <$> l) = f <$> rev l.
Proof.
  induction l as [|x l IH]; [done|]. rewrite fmap_cons. simpl.
  by rewrite IH, fmap_app.
Qed.

(** X7.  Deleting the selected node removes every node carrying its id
    and every edge that starts or ends at it, so that the id can no
    longer be returned by the orderer; the selection is cleared. *)
Theorem removeSelected_purges (ed : Editor) (sel : Node) :
  selected ed = Some sel ->
  (id sel ∉ (id <$> nodes (board (removeSelected ed))))
  ∧ (forall e, e ∈ edges (board (removeSelected ed)) ->
       source e ≠ id sel ∧ target e ≠ id sel)
  ∧ (id sel ∉ topologicalSort (nodes (board (removeSelected ed)))
                (edges (board (removeSelected ed))))
  ∧ selected (removeSelected ed) = None.
Proof.
  intros Hsel. unfold removeSelected. rewrite Hsel. cbn [board nodes edges selected].
  assert (Hn : id sel ∉ id <$> filter (fun n => id n ≠ id sel) (nodes (board ed))).
  { intros Hin. apply list_elem_of_fmap in Hin as (n & Hid & Hn).
    apply list_elem_of_filter in Hn as [Hne _]. by destruct Hne. }
  assert (He : forall e,
             e ∈ filter (fun e => source e ≠ id sel ∧ target e ≠ id sel) (edges (board ed)) ->
             source e ≠ id sel ∧ target e ≠ id sel).
  { intros e Hin. by apply list_elem_of_filter in Hin as [? _]. }
  split; [done|]. split; [done|]. split; [|done].
  intros Hin. apply sort_known in Hin as [Hin|Hin]; [done|].
  apply list_elem_of_fmap in Hin as (e & Ht & Hin). apply He in Hin as [_ Hne]. by destruct Hne.
Qed.

Lemma removeSelected_purges_witness :
  let ed := mkEditor (mkBoard (pipeline (newNode "o" "Optimizer")) pipelineEdges
                        EmptyString "project")
                     (Some (newNode "l" "Loss")) in
  "l" ∉ topologicalSort (nodes (board (removeSelected ed)))
          (edges (board (removeSelected ed))).
Proof.
  cbv zeta.
  exact (proj1 (proj2 (proj2
    (removeSelected_purges
       (mkEditor (mkBoard (pipeline (newNode "o" "Optimizer")) pipelineEdges
                    EmptyString "project")
                 (Some (newNode "l" "Loss")))
       (newNode "l" "Loss") eq_refl)))).
Defined.

(** X8.  Deleting the selected node keeps a well-formed graph
    well-formed: ids stay pairwise distinct and no edge is left
    dangling. *)
Theorem removeSelected_keeps_well_formed (ed : Editor) :
  NoDup (id <$> nodes (board ed)) ->
  no_dangling (nodes (board ed)) (edges (board ed)) ->
  NoDup (id <$> nodes (board (removeSelected ed)))
  ∧ no_dangling (nodes (board (removeSelected ed))) (edges (board (removeSelected ed))).
Proof.
  intros Hnd Hdang. unfold removeSelected.
  destruct (selected ed) as [sel|]; [|done]. cbn [board nodes edges].
  assert (Hkeep : forall k, k ∈ id <$> nodes (board ed) -> k ≠ id sel ->
            k ∈ id <$> filter (fun n => id n ≠ id sel) (nodes (board ed))).
  { intros k Hk Hne. apply list_elem_of_fmap in Hk as (n & -> & Hn).
    apply list_elem_of_fmap. exists n. split; [done|]. by apply list_elem_of_filter. }
  split.
  - clear Hdang Hkeep. induction (nodes (board ed)) as [|n ns IH]; [constructor|].
    rewrite fmap_cons in Hnd. apply NoDup_cons in Hnd as [Hn Hns].
    rewrite filter_cons. case_decide; [|by apply IH].
    rewrite fmap_cons. apply NoDup_cons. split; [|by apply IH].
    intros Hin. apply Hn. apply list_elem_of_fmap in Hin as (m & Hid & Hm).
    apply list_elem_of_filter in Hm as [_ Hm].
    apply list_elem_of_fmap. by exists m.
  - intros e He. apply list_elem_of_filter in He as [[Hs Ht] He].
    destruct (Hdang e He). split; by apply Hkeep.
Qed.

Lemma removeSelected_keeps_well_formed_witness :
  let ed := mkEditor (mkBoard (pipeline (newNode "o" "Optimizer")) pipelineEdges
                        EmptyString "project")
                     (Some (newNode "l" "Loss")) in
  NoDup (id <$> nodes (board (removeSelected ed)))
  ∧ no_dangling (nodes (board (removeSelected ed))) (edges (board (removeSelected ed))).
Proof.
  cbv zeta. apply removeSelected_keeps_well_formed.
  - compute_done.
  - by apply pipeline_no_dangling.
Defined.

(** X9.  Editing a node replaces its data and nothing else: the ids, the
    edges and hence the dependency order are unchanged, the edited id
    now resolves to the new data and every other id resolves as
    before. *)
Theorem updateNode_keeps_order (patched : Node) (ed : Editor) :
  id <$> nodes (board (updateNode patched ed)) = id <$> nodes (board ed)
  ∧ edges (board (updateNode patched ed)) = edges (board ed)
  ∧ topologicalSort (nodes (board (updateNode patched ed)))
      (edges (board (updateNode patched ed)))
    = topologicalSort (nodes (board ed)) (edges (board ed))
  ∧ (forall n, n ∈ nodes (board (updateNode patched ed)) -> id n = id patched ->
       data n = data patched)
  ∧ (forall k, k ≠ id patched ->
       byIdLookup (nodes (board (updateNode patched ed))) k
       = byIdLookup (nodes (board ed)) k).
Proof.
  unfold updateNode. cbn [board nodes edges setNodes].
  set (f := fun n => if decide (id n = id patched) then mkNode (id n) (data patched) else n).
  assert (Hid : forall n, id (f n) = id n).
  { intros n. unfold f. by case_decide. }
  assert (Hids : id <$> (f <$> nodes (board ed)) = id <$> nodes (board ed)).
  { rewrite <- list_fmap_compose. apply list_fmap_ext. intros _ n _. apply Hid. }
  split; [done|]. split; [done|]. split; [by unfold topologicalSort; rewrite Hids|]. split.
  - intros n Hn Hp. apply list_elem_of_fmap in Hn as (m & -> & _).
    unfold f in *. case_decide; [done|]. by destruct H.
  - intros k Hk. unfold byIdLookup. rewrite rev_fmap.
    induction (rev (nodes (board ed))) as [|n ns IH]; [done|].
    rewrite fmap_cons. cbn [List.find]. rewrite Hid.
    destruct (String.eqb_spec (id n) k) as [Heq|Hne].
    + unfold f. rewrite decide_False by congruence. done.
    + exact IH.
Qed.

(** X10.  A node added under an id that no node carries keeps the ids
    pairwise distinct and the edges free of dangling ends, becomes the
    selection, and raises the count of its type by one. *)
Theorem addNode_keeps_well_formed (random t : string) (ed : Editor) :
  uid "node" random ∉ (id <$> nodes (board ed)) ->
  NoDup (id <$> nodes (board ed)) ->
  no_dangling (nodes (board ed)) (edges (board ed)) ->
  NoDup (id <$> nodes (board (addNode random t ed)))
  ∧ no_dangling (nodes (board (addNode random t ed))) (edges (board (addNode random t ed)))
  ∧ option_map id (selected (addNode random t ed)) = Some (uid "node" random)
  ∧ typeCount (nodes (board (addNode random t ed))) t
    = S (typeCount (nodes (board ed)) t).
Proof.
  intros Hfresh Hnd Hdang. unfold addNode. cbn [board nodes edges setNodes selected].
  split; [|split; [|split]].
  - rewrite fmap_app. apply NoDup_app. split; [done|]. split; [|apply NoDup_singleton].
    intros x Hx Hin. apply list_elem_of_singleton in Hin. cbn [id] in Hin. by subst x.
  - intros e He. destruct (Hdang e He). rewrite fmap_app, !elem_of_app. by split; left.
  - done.
  - unfold typeCount. rewrite List.filter_app, length_app. cbn [List.filter data type].
    rewrite String.eqb_refl. simpl. lia.
Qed.

Lemma addNode_keeps_well_formed_witness :
  let ed := mkEditor (mkBoard (pipeline (newNode "o" "Optimizer")) pipelineEdges
                        EmptyString "project") None in
  typeCount (nodes (board (addNode "k3x9a1q" "Metric" ed))) "Metric"
  = S (typeCount (nodes (board ed)) "Metric").
Proof.
  cbv zeta.
  refine (proj2 (proj2 (proj2
    (addNode_keeps_well_formed "k3x9a1q" "Metric"
       (mkEditor (mkBoard (pipeline (newNode "o" "Optimizer")) pipelineEdges
                    EmptyString "project") None) _ _ _)))).
  - compute_done.
  - compute_done.
  - by apply pipeline_no_dangling.
Defined.

(** X11.  Adding a node under an id that neither a node nor an edge
    mentions and deleting it at once gives back the nodes and the edges
    there were. *)
Theorem addNode_removeSelected (random t : string) (ed : Editor) :
  uid "node" random ∉ (id <$> nodes (board ed)) ->
  (forall e, e ∈ edges (board ed) ->
     source e ≠ uid "node" random ∧ target e ≠ uid "node" random) ->
  board (removeSelected (addNode random t ed)) = board ed
  ∧ selected (removeSelected (addNode random t ed)) = None.
Proof.
  intros Hfresh Hedges. unfold removeSelected, addNode.
  cbn [selected board nodes edges setNodes code projectName id].
  split; [|done]. destruct (board ed) as [ns es c pn]. cbn [nodes edges code projectName] in *.
  f_equal.
  - rewrite filter_app, filter_cons, decide_False by (cbn [id]; auto).
    rewrite filter_nil, app_nil_r. apply filter_all.
    intros n Hn Heq. apply Hfresh. apply list_elem_of_fmap. by exists n.
  - apply filter_all. intros e He. by apply Hedges.
Qed.

Lemma addNode_removeSelected_witness :
  let ed := mkEditor (mkBoard (pipeline (newNode "o" "Optimizer")) pipelineEdges
                        EmptyString "project") None in
  board (removeSelected (addNode "k3x9a1q" "Metric" ed)) = board ed
  ∧ selected (removeSelected (addNode "k3x9a1q" "Metric" ed)) = None.
Proof.
  cbv zeta. apply addNode_removeSelected.
  - compute_done.
  - intros e He. unfold pipelineEdges in He. cbn [board edges] in He.
    repeat (apply elem_of_cons in He as [->|He]; [split; compute_done|]).
    by apply not_elem_of_nil in He.
Defined.

End editor_properties.

(** ** Further properties of the emitter *)

Section emitter_blocks.
Import Topo TopoSpec TopoInvariant EmitterFacts.

(** *** Comment dumps *)

Lemma split_nonempty sep s : split sep s ≠ [].
Proof.
  destruct s as [|c s]; [done|]. simpl.
  destruct (Ascii.eqb c sep); [done|]. by destruct (split sep s).
Qed.

Lemma split_pieces_noNewline s : Forall (fun p => noNewline p = true) (split nlc s).
Proof.
  induction s as [|c s IH]; [by repeat constructor|]. simpl.
  destruct (Ascii.eqb c nlc) eqn:E; [by constructor|].
  destruct (split nlc s) as [|h t]; [repeat constructor; simpl; by rewrite E|].
  apply Forall_cons in IH as [Hh Ht]. constructor; [|done]. simpl. by rewrite E.
Qed.

(** Splitting after a prefix without line break. *)
Lemma split_prepend p u :
  noNewline p = true ->
  split nlc (p +:+ u)
  = match split nlc u with
    | [] => [p]
    | h :: t => (p +:+ h) :: t
    end.
Proof.
  induction p as [|c p IH]; intros Hp; simpl.
  - by destruct (split nlc u) eqn:E; [apply split_nonempty in E|].
  - simpl in Hp. apply andb_true_iff in Hp as [Hc Hp].
    apply negb_true_iff in Hc. rewrite Hc, (IH Hp).
    by destruct (split nlc u).
Qed.

Lemma string_app_empty (s : string) : s +:+ EmptyString = s.
Proof.
  induction s as [|c s IH]; [done|].
  change (String c (s +:+ EmptyString) = String c s). by rewrite IH.
Qed.

Lemma split_concat_comment pieces :
  pieces ≠ [] ->
  Forall (fun p => noNewline p = true) pieces ->
  split nlc (String.concat (nl +:+ "# ") pieces)
  = match pieces with
    | [] => []
    | h :: t => h :: ((fun p => "# " +:+ p) <$> t)
    end.
Proof.
  induction pieces as [|x pieces IH]; [done|]. intros _ Hall.
  apply Forall_cons in Hall as [Hx Hall].
  destruct pieces as [|y pieces].
  - simpl. rewrite <- (string_app_empty x) at 1.
    rewrite split_prepend by done. cbn [split]. by rewrite string_app_empty.
  - change (String.concat (nl +:+ "# ") (x :: y :: pieces))
      with (x +:+ (String nlc ("# " +:+ String.concat (nl +:+ "# ") (y :: pieces)))).
    rewrite split_prepend by done.
    cbn [split]. rewrite Ascii.eqb_refl.
    rewrite (split_prepend "# ") by done. rewrite IH by done.
    by rewrite string_app_empty.
Qed.

(** X15.  The dump of a node's [params] cannot leave its comment: for
    every text, each line of [# params: ...] starts with [#], and the
    dump has as many lines as the text. *)
Theorem paramsComment_comment_only (text : string) :
  Forall (fun line => isComment line = true) (split nlc (paramsComment text))
  ∧ length (split nlc (paramsComment text)) = length (split nlc text).
Proof.
  unfold paramsComment. rewrite (split_prepend "# params: ") by done.
  pose proof (split_nonempty nlc text) as Hne.
  pose proof (split_pieces_noNewline text) as Hall.
  rewrite split_concat_comment by done.
  destruct (split nlc text) as [|h t]; [done|]. split.
  - constructor; [done|]. apply Forall_fmap. by apply Forall_true.
  - simpl. by rewrite length_fmap.
Qed.

(** *** Derived identifiers *)

Lemma allWordChars_app a b :
  allWordChars (a +:+ b) = allWordChars a && allWordChars b.
Proof. induction a as [|c a IH]; [done|]. simpl. by rewrite IH, andb_assoc. Qed.

Lemma allWordChars_replace b s : allWordChars (replaceNonWordFrom b s) = true.
Proof.
  revert b. induction s as [|c s IH]; intros b; [done|]. simpl.
  destruct (isWordChar c) eqn:E; simpl; [by rewrite E, IH|].
  destruct b; [apply IH|]. simpl. apply IH.
Qed.

Lemma replace_word_only b s : allWordChars s = true -> replaceNonWordFrom b s = s.
Proof.
  revert b. induction s as [|c s IH]; intros b Hs; [done|]. simpl in *.
  apply andb_true_iff in Hs as [Hc Hs]. by rewrite Hc, IH.
Qed.

Lemma allWordChars_uint d : allWordChars (NilEmpty.string_of_uint d) = true.
Proof. induction d; simpl; done. Qed.

Lemma allWordChars_natToString i : allWordChars (natToString i) = true.
Proof.
  unfold natToString, NilZero.string_of_uint.
  destruct (Nat.to_uint i) eqn:E; [done|..]; rewrite <- E; apply allWordChars_uint.
Qed.

Lemma natToString_nonempty i : natToString i ≠ EmptyString.
Proof.
  unfold natToString, NilZero.string_of_uint. by destruct (Nat.to_uint i).
Qed.

Lemma strOr_safe r fb :
  allWordChars r = true -> allWordChars fb = true -> fb ≠ EmptyString ->
  strOr r fb ≠ EmptyString ∧ allWordChars (strOr r fb) = true.
Proof. intros Hr Hfb Hne. unfold strOr. by destruct r. Qed.

Lemma strOr_word_label l fb :
  l ≠ EmptyString -> allWordChars l = true -> strOr (replaceNonWord l) fb = l.
Proof.
  intros Hne Hw. unfold replaceNonWord. rewrite replace_word_only by done.
  unfold strOr. by destruct l.
Qed.

Lemma fallback_safe (pfx : string) i :
  allWordChars pfx = true -> pfx ≠ EmptyString ->
  allWordChars (pfx +:+ natToString i) = true ∧ pfx +:+ natToString i ≠ EmptyString.
Proof.
  intros Hp Hne. split.
  - by rewrite allWordChars_app, Hp, allWordChars_natToString.
  - by destruct pfx.
Qed.

(** X16.  The name a Data or Transform node is bound to is never empty
    and holds letters, digits and underscores only, whatever the label;
    a non-empty label made of such characters is used unchanged. *)
Theorem derived_names_safe (i : nat) (n : Node) :
  exists dataName tfName,
    dataNodeLines i n !! 1%nat = Some (dataName +:+ " = None  # TODO: load your dataset here")
    ∧ transformNodeLines i n !! 0%nat
      = Some (tfName +:+ " = nn.Identity()  # TODO: implement transform")
    ∧ dataName ≠ EmptyString ∧ allWordChars dataName = true
    ∧ tfName ≠ EmptyString ∧ allWordChars tfName = true
    ∧ (label (data n) ≠ EmptyString -> allWordChars (label (data n)) = true ->
       dataName = label (data n) ∧ tfName = label (data n)).
Proof.
  exists (strOr (replaceNonWord (label (data n))) ("dataset_" +:+ natToString i)),
         (strOr (replaceNonWord (label (data n))) ("transform_" +:+ natToString i)).
  split; [done|]. split; [done|].
  pose proof (allWordChars_replace false (label (data n))) as Hw.
  destruct (fallback_safe "dataset_" i) as [Hd1 Hd2]; [done..|].
  destruct (fallback_safe "transform_" i) as [Ht1 Ht2]; [done..|].
  destruct (strOr_safe _ _ Hw Hd1 Hd2) as [? ?].
  destruct (strOr_safe _ _ Hw Ht1 Ht2) as [? ?].
  repeat (split; [done|]).
  intros Hne Hl. by rewrite !strOr_word_label.
Qed.

(** *** Node types without a block *)

Lemma find_skip {A} (f : A -> bool) l1 x l2 :
  f x = false -> List.find f (l1 ++ x :: l2) = List.find f (l1 ++ l2).
Proof.
  intros Hx. induction l1 as [|y l1 IH]; simpl; [by rewrite Hx|].
  by destruct (f y).
Qed.

Lemma filter_skip {A} (f : A -> bool) l1 x l2 :
  f x = false -> List.filter f (l1 ++ x :: l2) = List.filter f (l1 ++ l2).
Proof.
  intros Hx. rewrite !List.filter_app. simpl. by rewrite Hx.
Qed.

Lemma hasType_other t n :
  t ∈ emittingTypes -> type (data n) ∉ emittingTypes -> hasType t n = false.
Proof.
  intros Ht Hn. unfold hasType. destruct (String.eqb_spec (type (data n)) t); [|done].
  by subst t.
Qed.

Lemma scriptLines_skip before after n pn :
  type (data n) ∉ emittingTypes ->
  scriptLines (before ++ n :: after) pn = scriptLines (before ++ after) pn.
Proof.
  intros Hn.
  assert (H : forall t, t ∈ emittingTypes -> hasType t n = false)
    by (intros t Ht; by apply hasType_other).
  unfold scriptLines, assemble, dataLines, transformLines, splitLines, modelLines,
    lossLines, optimizerLines, trainerLines, metricLines.
  rewrite !(filter_skip _ before n after), !(find_skip _ before n after);
    first done; apply H; compute_done.
Qed.

(** X17.  A node whose type is none of the eight stage types (a
    Composite, an unrecognised type) is inert: wherever it stands among
    the ordered nodes, the script is the one emitted without it. *)
Theorem scriptLines_ignores_other_types (before after : list Node) (n : Node)
  (pn : string) :
  type (data n) ∉ emittingTypes ->
  scriptLines (before ++ n :: after) pn = scriptLines (before ++ after) pn.
Proof. apply scriptLines_skip. Qed.

Lemma scriptLines_ignores_other_types_witness :
  scriptLines ([newNode "m" "Model"] ++ newNode "g" "Composite" :: [newNode "l" "Loss"]) "p"
  = scriptLines ([newNode "m" "Model"] ++ [newNode "l" "Loss"]) "p".
Proof.
  apply (scriptLines_ignores_other_types [newNode "m" "Model"] [newNode "l" "Loss"]
           (newNode "g" "Composite") "p").
  compute_done.
Defined.

End emitter_blocks.

(** ** Scripts of validated graphs *)

Section validated_scripts.
Import Topo TopoSpec TopoInvariant EmitterFacts.

(** *** Texts without line break *)

Lemma noNewline_app a b : noNewline (a +:+ b) = noNewline a && noNewline b.
Proof.
  induction a as [|c a IH]; [done|].
  change (noNewline (String c (a +:+ b)) = noNewline (String c a) && noNewline b).
  cbn [noNewline]. by rewrite IH, andb_assoc.
Qed.

Lemma noNewline_uint d : noNewline (NilEmpty.string_of_uint d) = true.
Proof. induction d; simpl; done. Qed.

Lemma noNewline_zeros n : noNewline (zeros n) = true.
Proof. induction n; simpl; done. Qed.

Lemma noNewline_substring n m s :
  noNewline s = true -> noNewline (String.substring n m s) = true.
Proof.
  revert n m. induction s as [|c s IH]; intros n m Hs.
  - by destruct n, m.
  - cbn [noNewline] in Hs. apply andb_true_iff in Hs as [Hc Hs].
    destruct n as [|n]; [destruct m as [|m]; [done|]|]; cbn [String.substring].
    + cbn [noNewline]. by rewrite Hc, IH.
    + by apply IH.
Qed.

Lemma noNewline_positiveToString s n : noNewline (positiveToString s n) = true.
Proof.
  unfold positiveToString, digitsOf. cbv zeta.
  pose proof (noNewline_uint (Pos.to_uint s)) as Hd.
  repeat match goal with |- context [if ?b then _ else _] => destruct b end;
    rewrite ?noNewline_app, ?noNewline_zeros, ?noNewline_uint, ?noNewline_substring;
    done.
Qed.

Lemma noNewline_numberToString x : noNewline (numberToString x) = true.
Proof.
  destruct x as [|[]|?|[] s n]; try done; cbn [numberToString];
    rewrite ?noNewline_app, noNewline_positiveToString; done.
Qed.

Lemma noNewline_concat sep (l : list string) :
  noNewline sep = true ->
  Forall (fun s => noNewline s = true) l ->
  noNewline (String.concat sep l) = true.
Proof.
  intros Hsep. induction 1 as [|x l Hx Hl IH]; [done|].
  destruct l as [|y l]; [done|].
  change (String.concat sep (x :: y :: l)) with (x +:+ sep +:+ String.concat sep (y :: l)).
  by rewrite !noNewline_app, Hx, Hsep, IH.
Qed.

(** A value without line break in its strings converts to a text
    without line break. *)
Lemma toString_oneLine :
  forall v text, oneLine v = true -> toString v = Returned text -> noNewline text = true.
Proof.
  fix IH 1. intros [| [] | x | s | items | fields] text; cbn [toString oneLine];
    intros Hv Ht.
  - by injection Ht as <-.
  - by injection Ht as <-.
  - by injection Ht as <-.
  - injection Ht as <-. apply noNewline_numberToString.
  - by injection Ht as <-.
  - destruct (collect _) as [texts|] eqn:Hc; [|done]. injection Ht as <-.
    apply noNewline_concat; [done|].
    revert texts Hc. induction items as [|x items IHl]; intros texts Hc.
    + cbn [List.map collect] in Hc. injection Hc as <-. constructor.
    + cbn [List.map collect forallb] in Hc, Hv.
      apply andb_true_iff in Hv as [Hx Hitems].
      pose proof (IH x) as IHx.
      destruct (match x with JNull => Returned EmptyString | _ => toString x end)
        as [t|] eqn:Hxt; [|done].
      destruct (collect _) as [ts|] eqn:Hts; [|done]. injection Hc as <-.
      constructor; [|by apply IHl].
      destruct x; first [by injection Hxt as <- | by apply IHx].
  - destruct (hasOwn "toString" fields); [done|]. by injection Ht as <-.
Qed.

Lemma isWordChar_not_nl c : isWordChar c = true -> Ascii.eqb c nlc = false.
Proof. destruct (Ascii.eqb_spec c nlc) as [->|]; [by vm_compute | done]. Qed.

Lemma allWordChars_noNewline s : allWordChars s = true -> noNewline s = true.
Proof.
  induction s as [|c s IH]; [done|]. cbn [allWordChars noNewline]. intros H.
  apply andb_true_iff in H as [Hc Hs]. by rewrite (isWordChar_not_nl c Hc), IH.
Qed.

Lemma noNewline_strOr a b :
  noNewline a = true -> noNewline b = true -> noNewline (strOr a b) = true.
Proof. intros Ha Hb. unfold strOr. by destruct a. Qed.

(** *** Lines of the script that open no evaluation *)

Local Abbreviation quiet line := (Forall (fun x => x ≠ evalLine) (split nlc line)).

Lemma quiet_single line : noNewline line = true -> line ≠ evalLine -> quiet line.
Proof. intros Hn Hne. rewrite split_noNewline by done. by repeat constructor. Qed.

Lemma isComment_not_eval x : isComment x = true -> x ≠ evalLine.
Proof. by intros Hx ->. Qed.

Lemma quiet_paramsComment text : quiet (paramsComment text).
Proof.
  unfold paramsComment. rewrite (split_prepend "# params: ") by done.
  pose proof (split_nonempty nlc text) as Hne.
  pose proof (split_pieces_noNewline text) as Hall.
  rewrite split_concat_comment by done.
  destruct (split nlc text) as [|h t]; [done|].
  constructor; [by apply isComment_not_eval|].
  apply Forall_fmap, Forall_true. intros x. by apply isComment_not_eval.
Qed.

Lemma lineCount_quiet lines :
  Forall (fun line => quiet line) lines ->
  lineCount evalLine (concat (split nlc <$> lines)) = 0%nat.
Proof.
  induction 1 as [|l lines Hl _ IH]; [done|].
  rewrite fmap_cons. cbn [concat]. by rewrite lineCount_app, IH, lineCount_absent.
Qed.

Lemma Forall_List_filter {A} (P : A -> Prop) (f : A -> bool) l :
  Forall P l -> Forall P (List.filter f l).
Proof.
  rewrite !Forall_forall. intros H x Hx.
  apply list_elem_of_In, filter_In in Hx as [Hx _]. by apply H, list_elem_of_In.
Qed.

Lemma Forall_concat_imap_in {A B} (P : B -> Prop) (Q : A -> Prop)
  (f : nat -> A -> list B) (l : list A) :
  Forall Q l -> (forall i x, Q x -> Forall P (f i x)) -> Forall P (concat (imap f l)).
Proof.
  intros Hl. revert f. induction Hl as [|x l Hx _ IH]; intros f Hf; simpl; [constructor|].
  apply Forall_app. split; [by apply Hf|]. apply IH. intros i y. apply Hf.
Qed.

Ltac closed_quiet :=
  vm_compute; repeat (constructor; [discriminate|]); constructor.

Ltac single_quiet :=
  apply quiet_single;
  [ rewrite ?noNewline_app; repeat (apply andb_true_intro; split); done
  | first [ apply long_line_differs; vm_compute; lia
          | let H := fresh in intros H; vm_compute in H; discriminate H
          | let H := fresh in intros H; cbn in H; discriminate H ] ].

Ltac quiet_lines :=
  repeat (constructor; [first [apply quiet_paramsComment | closed_quiet | single_quiet]|]);
  constructor.

Lemma headerLines_quiet : Forall (fun line => quiet line) headerLines.
Proof. unfold headerLines. quiet_lines. Qed.

Lemma derived_name_noNewline label fallback i :
  allWordChars fallback = true ->
  noNewline (strOr (replaceNonWord label) (fallback +:+ natToString i)) = true.
Proof.
  intros Hf. apply allWordChars_noNewline. unfold strOr.
  pose proof (allWordChars_replace false label) as Hr. fold (replaceNonWord label) in Hr.
  destruct (replaceNonWord label); [|done].
  by rewrite allWordChars_app, Hf, allWordChars_natToString.
Qed.

Lemma dataLines_quiet ordered :
  Forall (fun n => noNewline (label (data n)) = true) ordered ->
  Forall (fun line => quiet line) (dataLines ordered).
Proof.
  intros Hl. unfold dataLines.
  destruct (List.filter _ ordered) as [|n l] eqn:E; [constructor|].
  apply Forall_app. split; [|quiet_lines].
  apply (Forall_concat_imap_in _ (fun n => noNewline (label (data n)) = true)).
  { rewrite <- E. by apply Forall_List_filter. }
  intros i x Hx. unfold dataNodeLines. cbv zeta.
  pose proof (derived_name_noNewline (label (data x)) "dataset_" i eq_refl) as Hname.
  quiet_lines.
Qed.

Lemma transformLines_quiet ordered :
  Forall (fun line => quiet line) (transformLines ordered).
Proof.
  unfold transformLines. destruct (List.filter _ ordered) as [|n l]; [constructor|].
  apply Forall_app. split; [quiet_lines|].
  apply Forall_app. split; [|quiet_lines].
  apply Forall_concat_imap. intros i x. unfold transformNodeLines. cbv zeta.
  pose proof (derived_name_noNewline (label (data x)) "transform_" i eq_refl) as Hname.
  quiet_lines.
Qed.

Lemma splitLines_quiet ordered : Forall (fun line => quiet line) (splitLines ordered).
Proof.
  unfold splitLines. destruct (List.find _ ordered); [|constructor].
  unfold splitBlock. cbv zeta. quiet_lines.
Qed.

Lemma modelLines_quiet ordered :
  Forall (fun n => noNewline (label (data n)) = true) ordered ->
  Forall (fun line => quiet line) (modelLines ordered).
Proof.
  intros Hl. unfold modelLines.
  destruct (List.find _ ordered) as [m|] eqn:E; [|constructor].
  apply find_elem_of in E as [Hin _]. rewrite Forall_forall in Hl.
  pose proof (noNewline_strOr _ "Model" (Hl m Hin) eq_refl) as Hname.
  unfold modelBlock. cbv zeta. quiet_lines.
Qed.

Lemma lossLines_quiet ordered : Forall (fun line => quiet line) (lossLines ordered).
Proof. unfold lossLines. destruct (List.find _ ordered); [|constructor]. quiet_lines. Qed.

Lemma optimizerLines_quiet ordered lines :
  Forall (fun n => oneLine (paramValue n "lr" lrDefault) = true) ordered ->
  optimizerLines ordered = Returned lines ->
  Forall (fun line => quiet line) lines.
Proof.
  intros Hl. unfold optimizerLines, optimizerBlock.
  destruct (List.find _ ordered) as [opt|] eqn:E; [|intros [= <-]; constructor].
  apply find_elem_of in E as [Hin _]. rewrite Forall_forall in Hl.
  rewrite lrText_value. destruct (toString _) as [text|] eqn:Ht; [|done]. intros [= <-].
  pose proof (toString_oneLine _ _ (Hl opt Hin) Ht) as Htext.
  unfold optimizerBlockWith, optimizerLine. quiet_lines.
Qed.

Lemma trainerLines_quiet ordered lines :
  Forall (fun n => oneLine (paramValue n "batch_size" batchSizeDefault) = true
                   ∧ oneLine (paramValue n "epochs" epochsDefault) = true) ordered ->
  trainerLines ordered = Returned lines ->
  Forall (fun line => quiet line) lines.
Proof.
  intros Hl. unfold trainerLines.
  destruct (List.find _ ordered) as [t|] eqn:E; [|intros [= <-]; constructor].
  apply find_elem_of in E as [Hin _]. rewrite Forall_forall in Hl.
  destruct (Hl t Hin) as [Hb He].
  rewrite trainerBlock_value.
  destruct (toString (paramValue t "batch_size" batchSizeDefault)) as [batch|] eqn:Htb;
    [|done].
  destruct (toString (paramValue t "epochs" epochsDefault)) as [epochs|] eqn:Hte; [|done].
  intros [= <-].
  pose proof (toString_oneLine _ _ Hb Htb) as Hbatch.
  pose proof (toString_oneLine _ _ He Hte) as Hepochs.
  unfold trainerBlockWith. quiet_lines.
Qed.

Lemma footerLines_quiet pn :
  noNewline pn = true -> Forall (fun line => quiet line) (footerLines pn).
Proof. intros Hpn. unfold footerLines. quiet_lines. Qed.

Lemma metricLines_text_count ordered :
  lineCount evalLine (concat (split nlc <$> metricLines ordered))
  = if (length (List.filter (hasType NODE_TYPES.Metric) ordered) =? 0)%nat
    then 0%nat else 1%nat.
Proof.
  unfold metricLines. destruct (List.filter _ ordered) as [|n l]; [done|].
  vm_compute. reflexivity.
Qed.

Lemma filter_length_Permutation {A} (f : A -> bool) (l k : list A) :
  l ≡ₚ k -> length (List.filter f l) = length (List.filter f k).
Proof.
  induction 1 as [|x l k _ IH|x y l|l k m _ IH1 _ IH2]; simpl.
  - done.
  - destruct (f x); simpl; by rewrite IH.
  - by destruct (f x), (f y).
  - by rewrite IH1.
Qed.

Lemma singleLined_parts n :
  singleLined n = true ->
  noNewline (label (data n)) = true
  ∧ oneLine (paramValue n "lr" lrDefault) = true
  ∧ oneLine (paramValue n "batch_size" batchSizeDefault) = true
  ∧ oneLine (paramValue n "epochs" epochsDefault) = true.
Proof.
  unfold singleLined. intros H.
  apply andb_true_iff in H as [H He]. apply andb_true_iff in H as [H Hb].
  by apply andb_true_iff in H as [Hl Hr].
Qed.

(** X14.  Metric gating, on the text: in the script of a validated graph
    (pairwise distinct ids, no dangling edge) whose interpolated
    parameters convert to strings and in which no label, no
    interpolated parameter and not the project name holds a line break,
    the line that opens the evaluation occurs once when the graph holds
    at least one Metric node, however many there are, and not at all
    when it holds none. *)
Theorem metric_block_gated (nodes : list Node) (edges : list Edge) (pn : string) :
  NoDup (id <$> nodes) ->
  no_dangling nodes edges ->
  ok (validateGraph nodes edges) = true ->
  Forall (fun n => interpolable n = true) nodes ->
  Forall (fun n => singleLined n = true) nodes ->
  noNewline pn = true ->
  exists script,
    generatePyTorchCode nodes edges pn = Returned script
    ∧ lineCount "model.eval()" (split nlc script)
      = if (typeCount nodes NODE_TYPES.Metric =? 0)%nat then 0%nat else 1%nat.
Proof.
  intros Hnd Hdang Hok Hall Hsingle Hpn.
  destruct (valid_graph_lines nodes edges pn Hnd Hdang Hok Hall)
    as (ordered & optimizer & trainer & Hlines & Hgen & Hopt & Htr & Hid & Hperm).
  exists (String.concat nl (assemble ordered pn optimizer trainer)). split; [done|].
  rewrite <- Hperm in Hsingle.
  assert (Hparts : Forall (fun n => noNewline (label (data n)) = true
                                    ∧ oneLine (paramValue n "lr" lrDefault) = true
                                    ∧ oneLine (paramValue n "batch_size" batchSizeDefault) = true
                                    ∧ oneLine (paramValue n "epochs" epochsDefault) = true)
                     ordered).
  { eapply Forall_impl; [exact Hsingle|]. intros n. apply singleLined_parts. }
  assert (Hlabel : Forall (fun n => noNewline (label (data n)) = true) ordered).
  { eapply Forall_impl; [exact Hparts|]. by intros n (? & _). }
  assert (Hlr : Forall (fun n => oneLine (paramValue n "lr" lrDefault) = true) ordered).
  { eapply Forall_impl; [exact Hparts|]. by intros n (_ & ? & _). }
  assert (Hbe : Forall (fun n => oneLine (paramValue n "batch_size" batchSizeDefault) = true
                                 ∧ oneLine (paramValue n "epochs" epochsDefault) = true)
                  ordered).
  { eapply Forall_impl; [exact Hparts|]. by intros n (_ & _ & ? & ?). }
  change "model.eval()" with evalLine.
  rewrite split_concat_nl by (unfold assemble, headerLines; done).
  unfold assemble. rewrite !fmap_app, !concat_app, !lineCount_app.
  rewrite (lineCount_quiet _ headerLines_quiet),
    (lineCount_quiet _ (dataLines_quiet ordered Hlabel)),
    (lineCount_quiet _ (transformLines_quiet ordered)),
    (lineCount_quiet _ (splitLines_quiet ordered)),
    (lineCount_quiet _ (modelLines_quiet ordered Hlabel)),
    (lineCount_quiet _ (lossLines_quiet ordered)),
    (lineCount_quiet _ (optimizerLines_quiet ordered _ Hlr Hopt)),
    (lineCount_quiet _ (trainerLines_quiet ordered _ Hbe Htr)),
    (lineCount_quiet _ (footerLines_quiet pn Hpn)),
    metricLines_text_count.
  unfold typeCount, hasType.
  rewrite (filter_length_Permutation _ _ _ Hperm). lia.
Qed.

Lemma metric_block_gated_witness :
  exists script,
    generatePyTorchCode (pipeline (newNode "o" "Optimizer") ++ [newNode "k" "Metric"])
      pipelineEdges "project"
    = Returned script
    ∧ lineCount "model.eval()" (split nlc script)
      = if (typeCount (pipeline (newNode "o" "Optimizer") ++ [newNode "k" "Metric"])
              NODE_TYPES.Metric =? 0)%nat
        then 0%nat else 1%nat.
Proof.
  apply (metric_block_gated (pipeline (newNode "o" "Optimizer") ++ [newNode "k" "Metric"])
           pipelineEdges "project").
  - compute_done.
  - intros e He. unfold pipelineEdges in He.
    repeat (apply elem_of_cons in He as [->|He]; [split; compute_done|]).
    by apply not_elem_of_nil in He.
  - vm_compute. reflexivity.
  - repeat constructor.
  - repeat constructor.
  - reflexivity.
Defined.

(** A line break in a label carries text of the user's into the script
    as a line of its own: with the Data label below, a validated graph
    that holds no Metric node gets a script with an evaluation line. *)
Example metric_gating_needs_single_lines :
  let d := mkNode "d" (mkData ("x" +:+ nl +:+ "model.eval()") "Data" (Some emptyObject)
                         EmptyString) in
  let nodes := d :: pipeline (newNode "o" "Optimizer") in
  ok (validateGraph nodes pipelineEdges) = true
  ∧ typeCount nodes NODE_TYPES.Metric = 0%nat
  ∧ singleLined d = false
  ∧ exists script,
      generatePyTorchCode nodes pipelineEdges "project" = Returned script
      ∧ lineCount "model.eval()" (split nlc script) = 1%nat.
Proof.
  cbv zeta. repeat (split; [vm_compute; reflexivity|]).
  eexists. split; vm_compute; reflexivity.
Qed.




(** X13.  The script of a validated graph (pairwise distinct ids, no
    dangling edge, interpolated parameters that convert to strings)
    holds the line that instantiates the model, the line that defines
    the loss and the heading of the optimizer block, the model and the
    optimizer blocks being those of nodes of the graph, and it ends with
    a line break followed by the statement that saves the model under
    the project name. *)
Theorem validated_script_complete (nodes : list Node) (edges : list Edge) (pn : string) :
  NoDup (id <$> nodes) ->
  no_dangling nodes edges ->
  ok (validateGraph nodes edges) = true ->
  Forall (fun n => interpolable n = true) nodes ->
  exists ordered model opt script body,
    generatePyTorchCode nodes edges pn = Returned script
    ∧ emitScript ordered pn = Returned script
    ∧ model ∈ nodes ∧ opt ∈ nodes
    ∧ modelLines ordered = modelBlock model
    ∧ lossLines ordered = ["# Loss"; "criterion = nn.CrossEntropyLoss()"; nl]
    ∧ optimizerLines ordered = optimizerBlock opt
    ∧ "model = GeneratedModel().to(device)" ∈ split nlc script
    ∧ "criterion = nn.CrossEntropyLoss()" ∈ split nlc script
    ∧ "# Optimizer" ∈ split nlc script
    ∧ script
      = body +:+ nl +:+ "torch.save(model.state_dict(), " +:+ dq +:+ pn +:+ ".pt" +:+ dq +:+ ")".
Proof.
  intros Hnd Hdang Hok Hall.
  destruct (valid_graph_lines nodes edges pn Hnd Hdang Hok Hall)
    as (ordered & optimizer & trainer & Hlines & Hgen & Hopt & Htr & Hid & Hperm).
  apply validateGraph_ok in Hok as (Hm & Hl & Ho & _).
  destruct (find_in_permuted ordered nodes _ Hperm Hm) as (m & Hfm & Hmin).
  destruct (find_in_permuted ordered nodes _ Hperm Hl) as (l & Hfl & Hlin).
  destruct (find_in_permuted ordered nodes _ Hperm Ho) as (o & Hfo & Hoin).
  assert (Hml : modelLines ordered = modelBlock m) by (unfold modelLines; by rewrite Hfm).
  assert (Hll : lossLines ordered = ["# Loss"; "criterion = nn.CrossEntropyLoss()"; nl])
    by (unfold lossLines; by rewrite Hfl).
  assert (Hol : optimizerLines ordered = optimizerBlock o)
    by (unfold optimizerLines; by rewrite Hfo).
  assert (Hob : exists text, optimizer = optimizerBlockWith text).
  { rewrite Hol in Hopt. unfold optimizerBlock in Hopt.
    destruct (lrText o) as [text|]; [|done]. injection Hopt as <-. by exists text. }
  destruct Hob as [text ->].
  exists ordered, m, o,
    (String.concat nl (assemble ordered pn (optimizerBlockWith text) trainer)),
    (String.concat nl
       (headerLines ++ dataLines ordered ++ transformLines ordered ++ splitLines ordered
          ++ modelLines ordered ++ lossLines ordered ++ optimizerBlockWith text ++ trainer
          ++ metricLines ordered ++ [nl +:+ "# Save model"])).
  split; [done|]. split; [by apply emitScript_Returned|].
  repeat (split; [done|]).
  unfold assemble. rewrite Hml, Hll. split; [|split; [|split]].
  - apply single_line_in_script; [done|].
    rewrite !elem_of_app. do 4 right. left. unfold modelBlock. cbv zeta.
    do 8 apply list_elem_of_further. apply list_elem_of_here.
  - apply single_line_in_script; [done|].
    rewrite !elem_of_app. do 5 right. left.
    apply list_elem_of_further. apply list_elem_of_here.
  - apply single_line_in_script; [done|].
    rewrite !elem_of_app. do 6 right. left. apply list_elem_of_here.
  - unfold footerLines.
    change [nl +:+ "# Save model"; ?b] with ([nl +:+ "# Save model"] ++ [b]).
    rewrite !app_assoc. rewrite concat_nl_snoc; [done|].
    unfold headerLines. by rewrite <- !app_assoc.
Qed.

Lemma validated_script_complete_witness :
  exists ordered model opt script body,
    generatePyTorchCode (pipeline (newNode "o" "Optimizer")) pipelineEdges "project"
      = Returned script
    ∧ emitScript ordered "project" = Returned script
    ∧ model ∈ pipeline (newNode "o" "Optimizer")
    ∧ opt ∈ pipeline (newNode "o" "Optimizer")
    ∧ modelLines ordered = modelBlock model
    ∧ lossLines ordered = ["# Loss"; "criterion = nn.CrossEntropyLoss()"; nl]
    ∧ optimizerLines ordered = optimizerBlock opt
    ∧ "model = GeneratedModel().to(device)" ∈ split nlc script
    ∧ "criterion = nn.CrossEntropyLoss()" ∈ split nlc script
    ∧ "# Optimizer" ∈ split nlc script
    ∧ script
      = body +:+ nl +:+ "torch.save(model.state_dict(), " +:+ dq +:+ "project" +:+ ".pt"
             +:+ dq +:+ ")".
Proof.
  apply (validated_script_complete (pipeline (newNode "o" "Optimizer")) pipelineEdges "project").
  - compute_done.
  - by apply pipeline_no_dangling.
  - vm_compute. reflexivity.
  - repeat constructor.
Defined.

End validated_scripts.

(** ** Which nodes reach the emitter *)

Section emitter_resolution.
Import Topo TopoSpec TopoInvariant EmitterFacts.

Lemma byIdLookup_unknown nodes k :
  k ∉ (id <$> nodes) -> k ∉ objectPrototypeKeys -> byIdLookup nodes k = None.
Proof.
  intros Hk Hp. destruct (byIdLookup nodes k) as [[n|k']|] eqn:E; [| |done].
  - apply byIdLookup_Own in E as [Hn <-]. destruct Hk. apply list_elem_of_fmap. by exists n.
  - by apply byIdLookup_Inherited in E as (_ & ? & _).
Qed.

Lemma orderedNodes_ids nodes order :
  (forall k, k ∈ order -> k ∈ objectPrototypeKeys -> k ∈ (id <$> nodes)) ->
  exists ordered,
    orderedNodes nodes order = Own <$> ordered
    ∧ id <$> ordered = filter (fun k => k ∈ (id <$> nodes)) order
    ∧ forall n, n ∈ ordered -> n ∈ nodes.
Proof.
  unfold orderedNodes. induction order as [|k order IH]; intros Hk.
  - exists []. repeat split; [done..|]. intros n Hn. by apply not_elem_of_nil in Hn.
  - destruct IH as (ordered & Heq & Hids & Hin).
    { intros k' Hk'. apply Hk. by right. }
    cbn [omap list_omap]. rewrite filter_cons.
    destruct (decide (k ∈ id <$> nodes)) as [Hmem|Hmem].
    + destruct (byIdLookup_known nodes k Hmem) as (n & -> & Hn & Hid).
      exists (n :: ordered). rewrite !fmap_cons, Heq, Hids, Hid.
      repeat split; [done..|].
      intros m Hm. apply elem_of_cons in Hm as [->|Hm]; auto.
    + rewrite byIdLookup_unknown; [by exists ordered | done |].
      intros Hp. apply Hmem. by apply Hk; [left|].
Qed.

(** X18.  Unless a dangling edge target is spelled like a member of
    [Object.prototype], the emitter works, on every graph, cyclic and
    dangling ones included, on exactly the returned ids that name a
    node, in the orderer's sequence: nodes that were not reached and ids
    that name no node leave no trace.  It returns the joined lines when
    the values interpolated for the first Optimizer and the first
    Trainer node of that sequence convert to strings, and throws a
    [TypeError] when one of them does not. *)
Theorem generatePyTorchCode_emits_resolved (nodes : list Node) (edges : list Edge)
  (pn : string) :
  inherited_free nodes edges ->
  exists ordered,
    id <$> ordered
      = filter (fun k => k ∈ (id <$> nodes)) (topologicalSort nodes edges)
    ∧ (forall n, n ∈ ordered -> n ∈ nodes)
    ∧ if optimizerPrintable ordered && trainerPrintable ordered
      then exists optimizer trainer,
             optimizerLines ordered = Returned optimizer
             ∧ trainerLines ordered = Returned trainer
             ∧ generatePyTorchCode nodes edges pn
               = Returned (String.concat nl (assemble ordered pn optimizer trainer))
      else generatePyTorchCode nodes edges pn = Thrown TypeError.
Proof.
  intros Hfree.
  destruct (orderedNodes_ids nodes (topologicalSort nodes edges))
    as (ordered & Heq & Hids & Hin).
  { intros k Hk Hkey. apply sort_known in Hk as [?|Hk]; [done|].
    apply list_elem_of_fmap in Hk as (e & -> & He). by apply Hfree. }
  exists ordered. split; [done|]. split; [done|].
  unfold generatePyTorchCode. rewrite Heq, readAll_Own.
  destruct (optimizerPrintable ordered && trainerPrintable ordered) eqn:Hp.
  - apply andb_true_iff in Hp as [Ho Ht].
    destruct (scriptLines_Returned ordered pn Ho Ht) as (optimizer & trainer & ? & ? & Hl).
    exists optimizer, trainer. repeat (split; [done|]). by apply emitScript_Returned.
  - unfold emitScript. by rewrite (scriptLines_Thrown ordered pn Hp).
Qed.

Lemma generatePyTorchCode_emits_resolved_witness :
  exists ordered,
    id <$> ordered
      = filter (fun k => k ∈ (id <$> [newNode "a" "Data"; newNode "b" "Model";
                                      newNode "c" "Loss"]))
          (topologicalSort [newNode "a" "Data"; newNode "b" "Model"; newNode "c" "Loss"]
             [mkEdge "b" "c"; mkEdge "c" "b"; mkEdge "a" "y"])
    ∧ (forall n, n ∈ ordered ->
         n ∈ [newNode "a" "Data"; newNode "b" "Model"; newNode "c" "Loss"])
    ∧ if optimizerPrintable ordered && trainerPrintable ordered
      then exists optimizer trainer,
             optimizerLines ordered = Returned optimizer
             ∧ trainerLines ordered = Returned trainer
             ∧ generatePyTorchCode
                 [newNode "a" "Data"; newNode "b" "Model"; newNode "c" "Loss"]
                 [mkEdge "b" "c"; mkEdge "c" "b"; mkEdge "a" "y"] "p"
               = Returned (String.concat nl (assemble ordered "p" optimizer trainer))
      else generatePyTorchCode
             [newNode "a" "Data"; newNode "b" "Model"; newNode "c" "Loss"]
             [mkEdge "b" "c"; mkEdge "c" "b"; mkEdge "a" "y"] "p"
           = Thrown TypeError.
Proof.
  apply (generatePyTorchCode_emits_resolved
           [newNode "a" "Data"; newNode "b" "Model"; newNode "c" "Loss"]
           [mkEdge "b" "c"; mkEdge "c" "b"; mkEdge "a" "y"] "p").
  intros e He.
  repeat (apply elem_of_cons in He as [->|He]; [compute_done|]).
  by apply not_elem_of_nil in He.
Defined.

(** Both branches occur: a lone Optimizer node is emitted with the
    default learning rate, and is the cause of a [TypeError] when its
    [lr] is an object with an own [toString] property. *)
Example generatePyTorchCode_returns_or_throws :
  generatePyTorchCode [newNode "o" "Optimizer"] [] "p"
  = Returned (String.concat nl
                (assemble [newNode "o" "Optimizer"] "p" (optimizerBlockWith "0.001") []))
  ∧ generatePyTorchCode
      [withParams (newNode "o" "Optimizer") (JObj [("lr", JObj [("toString", num 1 1)])])]
      [] "p"
    = Thrown TypeError
  ∧ generatePyTorchCode
      [withParams (newNode "t" "Trainer")
         (JObj [("epochs", JArr [num 1 1; JObj [("toString", JNull)]])])]
      [] "p"
    = Thrown TypeError.
Proof. repeat split; vm_compute; reflexivity. Qed.

End emitter_resolution.

(** ** Building, then downloading *)

Section build_then_download.
Import EmitterFacts.

Lemma scriptText_nonempty ordered pn optimizer trainer :
  String.concat nl (assemble ordered pn optimizer trainer) ≠ EmptyString.
Proof.
  unfold assemble, headerLines. cbn [app]. cbn [String.concat]. done.
Qed.

Lemma errorReport_nonempty errs : errorReport errs ≠ EmptyString.
Proof. unfold errorReport. done. Qed.

Lemma generatePyTorchCode_nonempty ns es pn script :
  generatePyTorchCode ns es pn = Returned script -> script ≠ EmptyString.
Proof.
  unfold generatePyTorchCode, emitScript, scriptLines. destruct (readAll _); [|done].
  destruct (optimizerLines _); [|done]. destruct (trainerLines _); [|done].
  intros [= <-]. apply scriptText_nonempty.
Qed.

(** X19.  Whatever a build stores, the error report or the script, is
    never empty, so a download that follows a build hands out exactly
    the stored text under [<projectName>.py] ([project.py] for an empty
    name), without running the validator or the emitter again and
    without touching the board. *)
Theorem buildCode_then_downloadCode (b built : Board) :
  buildCode b = Returned built ->
  code built ≠ EmptyString
  ∧ nodes built = nodes b ∧ edges built = edges b ∧ projectName built = projectName b
  ∧ downloadCode built
    = Returned (built,
                mkDownload (strOr (projectName b) "project" +:+ ".py") (code built)).
Proof.
  intros Hb. unfold buildCode in Hb.
  assert (Hcode : code built ≠ EmptyString
                  ∧ nodes built = nodes b ∧ edges built = edges b
                  ∧ projectName built = projectName b).
  { destruct (negb (ok (validateGraph (nodes b) (edges b)))).
    - injection Hb as <-. cbn [setCode code nodes edges projectName].
      split; [apply errorReport_nonempty | done].
    - destruct (generatePyTorchCode (nodes b) (edges b) (projectName b)) as [script|] eqn:E;
        [|done].
      injection Hb as <-. cbn [setCode code nodes edges projectName].
      split; [by eapply generatePyTorchCode_nonempty | done]. }
  destruct Hcode as (Hne & Hn & He & Hp). repeat (split; [done|]).
  unfold downloadCode. rewrite Hp. by destruct (code built).
Qed.

Lemma buildCode_then_downloadCode_witness :
  let b := mkBoard (pipeline (newNode "o" "Optimizer")) pipelineEdges EmptyString
             EmptyString in
  let built := setCode b (String.concat nl
                            (assemble (pipeline (newNode "o" "Optimizer")) EmptyString
                               (optimizerBlockWith "0.001") [])) in
  downloadCode built = Returned (built, mkDownload "project.py" (code built)).
Proof.
  cbv zeta.
  refine (proj2 (proj2 (proj2 (proj2
    (buildCode_then_downloadCode
       (mkBoard (pipeline (newNode "o" "Optimizer")) pipelineEdges EmptyString EmptyString)
       _ _))))).
  vm_compute. reflexivity.
Defined.

End build_then_download.

(** ** Adding an isolated node *)

Section isolated_node.
Import Topo TopoSpec TopoTermination TopoTables TopoInvariant EmitterFacts.

(** What the inner [forEach] does to the table and what it pushes do not
    depend on the queue it pushes to. *)
Lemma relax_indep inc q u :
  relax (inc, q) u = ((relax (inc, []) u).1, q ++ (relax (inc, []) u).2).
Proof. unfold relax. cbn [fst snd]. case_decide; [done | by rewrite app_nil_r]. Qed.

Lemma foldl_relax_indep us inc q :
  foldl relax (inc, q) us
  = ((foldl relax (inc, []) us).1, q ++ (foldl relax (inc, []) us).2).
Proof.
  revert inc q. induction us as [|u us IH]; intros inc q; cbn [foldl].
  - by rewrite app_nil_r.
  - rewrite (relax_indep inc q u). destruct (relax (inc, []) u) as [inc1 p1].
    cbn [fst snd]. rewrite (IH inc1 (q ++ p1)), (IH inc1 p1). cbn [fst snd].
    by rewrite app_assoc.
Qed.

Lemma iteration_indep out v q st :
  iteration out v q st
  = mkLoop (foldl relax (incoming st, []) (succs out v)).1
           (q ++ (foldl relax (incoming st, []) (succs out v)).2)
           (result st ++ [v]).
Proof. unfold iteration. by rewrite (foldl_relax_indep _ _ q). Qed.

Lemma loop_result_prefix out fuel inc q r r' :
  loop fuel out (mkLoop inc q (r ++ r'))
  = (fun l => r ++ l) <$> loop fuel out (mkLoop inc q r').
Proof.
  revert inc q r'. induction fuel as [|fuel IH]; intros inc q r'; cbn [loop queue result].
  - by destruct q.
  - destruct q as [|v q]; [done|]. rewrite !iteration_indep. cbn [incoming result].
    rewrite <- app_assoc. apply IH.
Qed.

Lemma loop_step out fuel inc v q r :
  loop (S fuel) out (mkLoop inc (v :: q) r)
  = loop fuel out (iteration out v q (mkLoop inc (v :: q) r)).
Proof. reflexivity. Qed.

Lemma loop_skip_head out c fuel inc qb r res :
  succs out c = [] ->
  loop fuel out (mkLoop inc qb r) = Some res ->
  loop (S fuel) out (mkLoop inc (c :: qb) r)
  = Some (take (length r) res ++ c :: drop (length r) res).
Proof.
  intros Hc Hrun. rewrite loop_step, iteration_indep, Hc.
  cbn [foldl fst snd incoming result]. rewrite app_nil_r.
  rewrite <- (app_nil_r (r ++ [c])), (loop_result_prefix out fuel inc qb (r ++ [c]) []).
  rewrite <- (app_nil_r r) in Hrun at 1.
  rewrite (loop_result_prefix out fuel inc qb r []) in Hrun.
  destruct (loop fuel out (mkLoop inc qb [])) as [tl|]; [|done].
  cbn [fmap option_fmap option_map] in *. injection Hrun as <-.
  rewrite take_app_length, drop_app_length. by rewrite <- app_assoc.
Qed.

(** An id without successors that sits in the queue is emitted in its
    turn and changes nothing else. *)
Lemma loop_skip out c fuel :
  succs out c = [] ->
  forall inc qa qb r res,
    loop fuel out (mkLoop inc (qa ++ qb) r) = Some res ->
    loop (S fuel) out (mkLoop inc (qa ++ c :: qb) r)
    = Some (take (length r + length qa) res ++ c :: drop (length r + length qa) res).
Proof.
  intros Hc. induction fuel as [|fuel IH]; intros inc qa qb r res Hrun;
    (destruct qa as [|v qa];
     [cbn [app length] in *; rewrite Nat.add_0_r; by apply loop_skip_head|]).
  - done.
  - cbn [app] in *. rewrite loop_step, iteration_indep in Hrun.
    rewrite loop_step, iteration_indep.
    cbn [incoming result] in *. rewrite <- app_assoc in Hrun. rewrite <- app_assoc.
    cbn [app].
    apply IH in Hrun. rewrite Hrun, length_app. simpl.
    by replace (length r + 1 + length qa)%nat with (length r + S (length qa))%nat by lia.
Qed.

Lemma relax_agree inc inc' q u :
  tables_agree inc inc' ->
  (relax (inc, q) u).2 = (relax (inc', q) u).2
  ∧ tables_agree (relax (inc, q) u).1 (relax (inc', q) u).1.
Proof.
  intros H. unfold relax. cbn [fst snd]. rewrite !get0_insert_eq, (H u). split; [done|].
  intros w. destruct (decide (u = w)) as [->|Hne].
  - by rewrite !get0_insert_eq.
  - by rewrite !get0_insert_ne.
Qed.

Lemma foldl_relax_agree us inc inc' q :
  tables_agree inc inc' ->
  (foldl relax (inc, q) us).2 = (foldl relax (inc', q) us).2
  ∧ tables_agree (foldl relax (inc, q) us).1 (foldl relax (inc', q) us).1.
Proof.
  revert inc inc' q. induction us as [|u us IH]; intros inc inc' q H; cbn [foldl]; [done|].
  destruct (relax_agree inc inc' q u H) as [Hq Hi].
  destruct (relax (inc, q) u) as [i1 q1], (relax (inc', q) u) as [i2 q2].
  cbn [fst snd] in *. subst q2. by apply IH.
Qed.

(** The loop reads the two tables only through [get0] and [succs]. *)
Lemma loop_agree out out' fuel :
  (forall v, succs out v = succs out' v) ->
  forall inc inc' q r,
    tables_agree inc inc' ->
    loop fuel out (mkLoop inc q r) = loop fuel out' (mkLoop inc' q r).
Proof.
  intros Hs. induction fuel as [|fuel IH]; intros inc inc' q r H; cbn [loop queue result].
  - done.
  - destruct q as [|v q]; [done|]. unfold iteration. cbn [incoming result]. rewrite <- Hs.
    destruct (foldl_relax_agree (succs out v) inc inc' q H) as [Hq Hi].
    destruct (foldl relax (inc, q) (succs out v)) as [i1 q1],
             (foldl relax (inc', q) (succs out v)) as [i2 q2].
    cbn [fst snd] in *. subst q2. by apply IH.
Qed.

(** Appending a node that no edge mentions inserts its id right after
    the initial ready queue and moves nothing else. *)
Lemma sort_append_isolated ids edges c :
  c ∉ (source <$> edges) -> c ∉ (target <$> edges) ->
  sort (ids ++ [c]) edges
  = take (length (initQueue (buildMaps ids edges).2 ids)) (sort ids edges)
    ++ c :: drop (length (initQueue (buildMaps ids edges).2 ids)) (sort ids edges).
Proof.
  intros Hsrc Htgt.
  pose proof (run_sort ids edges (budget ids edges) ltac:(done)) as Hrun.
  pose proof (run_sort (ids ++ [c]) edges (S (budget ids edges))) as Hrun'.
  unfold run, initState in *.
  assert (Hagree : tables_agree (buildMaps (ids ++ [c]) edges).2 (buildMaps ids edges).2).
  { intros u. by rewrite !get0_buildMaps. }
  assert (Hq : initQueue (buildMaps (ids ++ [c]) edges).2 (ids ++ [c])
               = initQueue (buildMaps ids edges).2 ids ++ [c]).
  { unfold initQueue. rewrite filter_app. f_equal.
    - apply list_filter_iff. intros u. by rewrite (Hagree u).
    - rewrite filter_cons, decide_True; [done|].
      rewrite get0_buildMaps.
      destruct (decide (pending edges [] c = 0%nat)) as [->|Hp]; [done|].
      apply pending_pos in Hp as (e & He & Ht & _). destruct Htgt.
      apply list_elem_of_fmap. by exists e. }
  assert (Hc : succs (buildMaps ids edges).1 c = []).
  { rewrite succs_buildMaps.
    destruct (filter (fun e => source e = c) edges) as [|e l] eqn:E; [done|].
    assert (e ∈ filter (fun e => source e = c) edges) as Hin by (rewrite E; left).
    apply list_elem_of_filter in Hin as [Hs He]. destruct Hsrc.
    apply list_elem_of_fmap. by exists e. }
  rewrite Hq in Hrun'.
  rewrite (loop_agree (buildMaps (ids ++ [c]) edges).1 (buildMaps ids edges).1 _
             (fun v => eq_trans (succs_buildMaps _ _ v) (eq_sym (succs_buildMaps _ _ v)))
             _ _ _ _ Hagree) in Hrun'.
  rewrite <- (app_nil_r (initQueue (buildMaps ids edges).2 ids)) in Hrun.
  apply (loop_skip _ c _ Hc) in Hrun. cbn [length Nat.add] in Hrun.
  rewrite Hrun in Hrun'.
  assert (Hb : (budget (ids ++ [c]) edges <= S (budget ids edges))%nat).
  { unfold budget. rewrite length_app. simpl. lia. }
  specialize (Hrun' Hb). by injection Hrun' as ->.
Qed.

Lemma topologicalSort_append_isolated_order nodes edges n :
  id n ∉ (source <$> edges) ->
  id n ∉ (target <$> edges) ->
  topologicalSort (nodes ++ [n]) edges
  = take (length (filter (fun i => i ∉ (target <$> edges)) (id <$> nodes)))
      (topologicalSort nodes edges)
    ++ id n
       :: drop (length (filter (fun i => i ∉ (target <$> edges)) (id <$> nodes)))
            (topologicalSort nodes edges).
Proof.
  intros Hs Ht. unfold topologicalSort. rewrite fmap_app. cbn [fmap list_fmap].
  rewrite <- initQueue_untargeted. by apply sort_append_isolated.
Qed.

(** X20.  A node appended under an id that no edge mentions (as
    [addNode] and [groupSelection] do with a fresh id) takes its place
    right after the nodes that no edge points at; the other ids keep
    their places relative to each other. *)
Theorem topologicalSort_append_isolated (nodes : list Node) (edges : list Edge)
  (n : Node) :
  id n ∉ (source <$> edges) ->
  id n ∉ (target <$> edges) ->
  topologicalSort (nodes ++ [n]) edges
  = take (length (filter (fun i => i ∉ (target <$> edges)) (id <$> nodes)))
      (topologicalSort nodes edges)
    ++ id n
       :: drop (length (filter (fun i => i ∉ (target <$> edges)) (id <$> nodes)))
            (topologicalSort nodes edges).
Proof. apply topologicalSort_append_isolated_order. Qed.

Lemma topologicalSort_append_isolated_witness :
  topologicalSort (pipeline (newNode "o" "Optimizer") ++ [newNode "k" "Metric"])
    pipelineEdges
  = ["m"; "k"; "l"; "o"].
Proof.
  rewrite (topologicalSort_append_isolated (pipeline (newNode "o" "Optimizer"))
             pipelineEdges (newNode "k" "Metric")).
  - vm_compute. reflexivity.
  - compute_done.
  - compute_done.
Defined.









End isolated_node.
